(** * Continued fractions: a model of [Math::ContinuedFraction]

    A shallow embedding of the continued-fraction value type of
    [continued_fraction.h] and its implementation: the coefficient record,
    [normalize], the convergent recurrence, [to_string] and [parse_string],
    the cached evaluator [to_double], exact comparison, the constructors from
    an integer, a coefficient list, a string, a rational, a [double] and
    explicit periodic parts, the arithmetic and ordering operators (which go
    through [double]), the generators for square roots, for e and for pi, and
    [gcd]; then the properties established about them.

    Conventions.
    - [long long] is modelled as [Z]; every arithmetic result that is stored
      back into a [long long] goes through [Int64.wrap] (two's complement).
    - [size_t] indices and lengths are [nat].
    - [double] is the kernel's binary64 float ([PrimFloat]).
    - [std::vector] is [list]; an unchecked [operator[]] outside the vector is
      reported as the fault [oob_read].
    - exceptions are values of [fault]; fallible code returns [fault + A].
    - a conversion from [double] to [long long] whose result the language
      leaves undefined (a value that is not finite or does not fit) makes the
      enclosing function return [None].
    - a loop whose trip count is not known in advance takes its fuel from a
      bound on that count; the section on termination shows that the bound is
      never exhausted. *)

From Stdlib Require Import String Ascii.
From Stdlib Require Import Decimal DecimalString DecimalPos.
From Stdlib Require Import ZArith QArith Bool Lia List.
From Stdlib Require Import Floats.PrimFloat Floats.FloatOps Floats.SpecFloat.
From Stdlib Require Floats.FloatAxioms.
From Stdlib Require Import Numbers.Cyclic.Int63.Uint63.
Import ListNotations.

Local Open Scope Z_scope.

(* ================================================================== *)
(** ** 64-bit signed integers *)

Module Int64.

Definition modulus : Z := 2 ^ 64.
Definition min_signed : Z := - 2 ^ 63.
Definition max_signed : Z := 2 ^ 63 - 1.

(** Two's complement reduction into [min_signed .. max_signed]. *)
Definition wrap (z : Z) : Z := (z + 2 ^ 63) mod modulus - 2 ^ 63.

Definition in_range (z : Z) : Prop := min_signed <= z <= max_signed.

(** C++ [/] and [%] on [long long]: truncation toward zero. *)
Definition div (a b : Z) : Z := wrap (Z.quot a b).
Definition rem (a b : Z) : Z := Z.rem a b.

End Int64.

(* ================================================================== *)
(** ** Faults *)

(** The exceptions the library throws, plus the one undefined behaviour the
    model makes visible: reading [coefficients_[index]] with
    [index >= coefficients_.size()]. *)
Inductive fault : Type :=
| invalid_argument
| out_of_range
| runtime_error
| oob_read (index size : nat).

Definition result (A : Type) : Type := (fault + A)%type.

Definition ret {A} (a : A) : result A := inr a.
Definition throw {A} (f : fault) : result A := inl f.
Definition bind {A B} (m : result A) (k : A -> result B) : result B :=
  match m with
  | inl f => inl f
  | inr a => k a
  end.

Notation "x <- m ;; k" := (bind m (fun x => k))
  (at level 61, m at next level, right associativity).

(* ================================================================== *)
(** ** The coefficient record *)

Record Coefficient : Type := {
  value : Z;                   (* magnitude *)
  is_negative : bool;
  is_periodic_marker : bool
}.

(** [Coefficient(val, neg, periodic)]. *)
Definition Coefficient_ctor (val : Z) (neg periodic : bool) : Coefficient :=
  {| value := Int64.wrap (Z.abs val);
     is_negative := (val <? 0) || neg;
     is_periodic_marker := periodic |}.

(** [Coefficient(val)], the form [emplace_back(c)] builds. *)
Definition Coefficient_of (val : Z) : Coefficient :=
  Coefficient_ctor val false false.

Definition signed_value (c : Coefficient) : Z :=
  if is_negative c then Int64.wrap (- value c) else value c.

(** [Coefficient::operator==]. *)
Definition Coefficient_eqb (a b : Coefficient) : bool :=
  (signed_value a =? signed_value b) &&
  Bool.eqb (is_periodic_marker a) (is_periodic_marker b).

(* ================================================================== *)
(** ** Vectors *)

(** [v[i] = x] for [i < v.size()]. *)
Definition vec_set {A} (i : nat) (x : A) (v : list A) : list A :=
  firstn i v ++ x :: skipn (S i) v.

(** [v.erase(v.begin() + first, v.begin() + last)]. *)
Definition vec_erase {A} (first last : nat) (v : list A) : list A :=
  firstn first v ++ skipn last v.

(** Unchecked [coefficients_[i]]. *)
Definition vec_at (v : list Coefficient) (i : nat) : result Coefficient :=
  match nth_error v i with
  | Some c => ret c
  | None => throw (oob_read i (length v))
  end.

(* ================================================================== *)
(** ** The continued fraction *)

Record ContinuedFraction : Type := {
  coefficients_ : list Coefficient;
  is_finite_ : bool;
  is_periodic_ : bool;
  cached_value_ : float;
  value_cached_ : bool
}.

Definition with_coefficients (v : list Coefficient) (cf : ContinuedFraction)
  : ContinuedFraction :=
  {| coefficients_ := v;
     is_finite_ := is_finite_ cf;
     is_periodic_ := is_periodic_ cf;
     cached_value_ := cached_value_ cf;
     value_cached_ := value_cached_ cf |}.

(** [update_flags]. *)
Definition update_flags (cf : ContinuedFraction) : ContinuedFraction :=
  let p := existsb is_periodic_marker (coefficients_ cf) in
  {| coefficients_ := coefficients_ cf;
     is_finite_ := negb p;
     is_periodic_ := p;
     cached_value_ := cached_value_ cf;
     value_cached_ := value_cached_ cf |}.

(** [invalidate_cache]. *)
Definition invalidate_cache (cf : ContinuedFraction) : ContinuedFraction :=
  {| coefficients_ := coefficients_ cf;
     is_finite_ := is_finite_ cf;
     is_periodic_ := is_periodic_ cf;
     cached_value_ := PrimFloat.zero;
     value_cached_ := false |}.

(* ------------------------------------------------------------------ *)
(** *** Normalization *)

(** First pass of [normalize]: the [remove_if]/[erase] over
    [begin() + 1 .. end()], guarded by [size() > 1]. *)
Definition remove_zeros (v : list Coefficient) : list Coefficient :=
  if (1 <? length v)%nat then
    match v with
    | [] => []
    | c0 :: tl => c0 :: filter (fun c => negb (value c =? 0)) tl
    end
  else v.

(** The test of the merge loop on [coefficients_[i + 1]]. *)
Definition is_plain_one (c : Coefficient) : bool :=
  (value c =? 1) && negb (is_negative c) && negb (is_periodic_marker c).

(** Second pass of [normalize]: the loop
    [for (size_t i = 0; i + 2 < size(); ++i)].  One unit of fuel is one
    evaluation of the loop condition.  After a merge the source decrements
    [i] and the loop header increments it again ([size_t] arithmetic, so for
    [i = 0] this passes through the largest [size_t] and back to [0]); the
    next iteration therefore runs with the same [i]. *)
Fixpoint merge_loop (fuel i : nat) (v : list Coefficient) : list Coefficient :=
  match fuel with
  | O => v
  | S fuel' =>
      if (i + 2 <? length v)%nat then
        match nth_error v i, nth_error v (i + 1), nth_error v (i + 2) with
        | Some ci, Some c1, Some c2 =>
            if is_plain_one c1 then
              let new_val := Int64.wrap (signed_value ci + signed_value c2) in
              let v1 := vec_set i (Coefficient_of new_val) v in
              merge_loop fuel' i (vec_erase (i + 1) (i + 3) v1)
            else merge_loop fuel' (i + 1) v
        | _, _, _ => v
        end
      else v
  end.

(** Both passes on the coefficient vector.  The loop runs at most
    [size()] times (see [merge_loop_fuel]). *)
Definition normalize_coefficients (v : list Coefficient) : list Coefficient :=
  let v0 := remove_zeros v in
  merge_loop (length v0) 0 v0.

(** [normalize]. *)
Definition normalize (cf : ContinuedFraction) : ContinuedFraction :=
  invalidate_cache
    (update_flags (with_coefficients (normalize_coefficients (coefficients_ cf)) cf)).

(* ------------------------------------------------------------------ *)
(** *** Constructors and accessors *)

(** [ContinuedFraction()]. *)
Definition ContinuedFraction_default : ContinuedFraction :=
  {| coefficients_ := [Coefficient_of 0];
     is_finite_ := true;
     is_periodic_ := false;
     cached_value_ := PrimFloat.zero;
     value_cached_ := false |}.

(** [static_cast<double>] of a [long long]; [- min_signed] does not fit the
    63-bit unsigned source of [of_uint63], so it is built as [2^62 * 2]. *)
Definition double_of_ll (z : Z) : float :=
  if z =? Int64.min_signed then
    PrimFloat.opp (PrimFloat.mul (PrimFloat.of_uint63 (Uint63.of_Z (2 ^ 62)))
                                 PrimFloat.two)
  else if z <? 0 then PrimFloat.opp (PrimFloat.of_uint63 (Uint63.of_Z (- z)))
  else PrimFloat.of_uint63 (Uint63.of_Z z).

(** [ContinuedFraction(long long value)]. *)
Definition ContinuedFraction_of_int (v : Z) : ContinuedFraction :=
  {| coefficients_ := [Coefficient_of v];
     is_finite_ := true;
     is_periodic_ := false;
     cached_value_ := double_of_ll v;
     value_cached_ := true |}.

(** [ContinuedFraction(const std::vector<long long>&)]. *)
Definition ContinuedFraction_of_vector (coeffs : list Z) : ContinuedFraction :=
  normalize
    {| coefficients_ := map Coefficient_of coeffs;
       is_finite_ := true;
       is_periodic_ := false;
       cached_value_ := PrimFloat.zero;
       value_cached_ := false |}.

Definition get_coefficients (cf : ContinuedFraction) : list Z :=
  map signed_value (coefficients_ cf).

Definition set_coefficients (coeffs : list Z) (cf : ContinuedFraction)
  : ContinuedFraction :=
  normalize (with_coefficients (map Coefficient_of coeffs) cf).

Definition add_coefficient (coeff : Z) (cf : ContinuedFraction)
  : ContinuedFraction :=
  normalize (with_coefficients (coefficients_ cf ++ [Coefficient_of coeff]) cf).

Definition simplify (cf : ContinuedFraction) : ContinuedFraction := normalize cf.

Definition clear (cf : ContinuedFraction) : ContinuedFraction :=
  normalize (with_coefficients [Coefficient_of 0] cf).

Definition is_finite (cf : ContinuedFraction) : bool := is_finite_ cf.
Definition is_periodic (cf : ContinuedFraction) : bool := is_periodic_ cf.
Definition size (cf : ContinuedFraction) : nat := length (coefficients_ cf).
Definition is_integer (cf : ContinuedFraction) : bool := (size cf =? 1)%nat.

(** [create_periodic]. *)
Definition create_periodic (non_periodic periodic : list Z) : ContinuedFraction :=
  let coeffs :=
    map Coefficient_of non_periodic ++
    match periodic with
    | [] => []
    | p0 :: ps => Coefficient_ctor p0 false true :: map Coefficient_of ps
    end in
  normalize (with_coefficients coeffs ContinuedFraction_default).

(* ------------------------------------------------------------------ *)
(** *** Convergents *)

(** The body of [for (size_t i = 2; i <= n; ++i)], run [count] times
    starting at index [i]. *)
Fixpoint convergent_loop (v : list Coefficient) (count i : nat)
    (prev_num prev_den curr_num curr_den : Z) : result (Z * Z) :=
  match count with
  | O => ret (curr_num, curr_den)
  | S count' =>
      c <- vec_at v (i mod length v) ;;
      let coeff := signed_value c in
      let new_num := Int64.wrap (coeff * curr_num + prev_num) in
      let new_den := Int64.wrap (coeff * curr_den + prev_den) in
      convergent_loop v count' (S i) curr_num curr_den new_num new_den
  end.

(** [compute_convergent]: every [coefficients_[...]] is a [vec_at]. *)
Definition compute_convergent (n : nat) (cf : ContinuedFraction) : result (Z * Z) :=
  let v := coefficients_ cf in
  if (n =? 0)%nat then
    c0 <- vec_at v 0 ;; ret (signed_value c0, 1)
  else
    c0 <- vec_at v 0 ;;
    let prev_num := signed_value c0 in
    let prev_den := 1 in
    c1 <- vec_at v 1 ;;
    let curr_num := Int64.wrap (signed_value c0 * signed_value c1 + 1) in
    let curr_den := signed_value c1 in
    convergent_loop v (n - 1) 2 prev_num prev_den curr_num curr_den.

(** [convergent]: the range check, then [compute_convergent]. *)
Definition convergent (n : nat) (cf : ContinuedFraction) : result (Z * Z) :=
  if (length (coefficients_ cf) <=? n)%nat && is_finite_ cf
  then throw out_of_range
  else compute_convergent n cf.

(* ------------------------------------------------------------------ *)
(** *** Exact comparison *)

Fixpoint coefficients_eqb (a b : list Coefficient) : bool :=
  match a, b with
  | [], [] => true
  | x :: a', y :: b' => Coefficient_eqb x y && coefficients_eqb a' b'
  | _, _ => false
  end.

(** [operator==]: sizes first, then coefficient by coefficient. *)
Definition operator_eq (a b : ContinuedFraction) : bool :=
  if negb (length (coefficients_ a) =? length (coefficients_ b))%nat then false
  else coefficients_eqb (coefficients_ a) (coefficients_ b).

(** [operator!=]. *)
Definition operator_ne (a b : ContinuedFraction) : bool := negb (operator_eq a b).

(* ------------------------------------------------------------------ *)
(** *** The numeric evaluator *)


(** The fold of [to_double] over [rbegin() .. rend()]. *)
Definition fold_value (v : list Coefficient) : float :=
  fold_left
    (fun value c =>
       if PrimFloat.eqb value PrimFloat.zero
       then double_of_ll (signed_value c)
       else PrimFloat.add (double_of_ll (signed_value c))
                          (PrimFloat.div PrimFloat.one value))
    (rev v) PrimFloat.zero.

Definition set_cache (x : float) (cf : ContinuedFraction) : ContinuedFraction :=
  {| coefficients_ := coefficients_ cf;
     is_finite_ := is_finite_ cf;
     is_periodic_ := is_periodic_ cf;
     cached_value_ := x;
     value_cached_ := true |}.

(** [to_double]: the value returned and the instance with its cache
    ([mutable] members) filled. *)
Definition to_double (cf : ContinuedFraction) : float * ContinuedFraction :=
  if value_cached_ cf then (cached_value_ cf, cf)
  else
    match coefficients_ cf with
    | [] => (PrimFloat.zero, set_cache PrimFloat.zero cf)
    | _ => let x := fold_value (coefficients_ cf) in (x, set_cache x cf)
    end.

(* ------------------------------------------------------------------ *)
(** *** Rationals *)

(** The [while (d != 0)] loop of [from_rational]; one unit of fuel is one
    evaluation of the loop condition. *)
Fixpoint euclid_loop (fuel : nat) (n d : Z) (coeffs : list Z) : list Z :=
  match fuel with
  | O => coeffs
  | S fuel' =>
      if d =? 0 then coeffs
      else
        let q := Int64.div n d in
        let r := Int64.rem n d in
        euclid_loop fuel' d r (coeffs ++ [q])
  end.

(** The vector [coeffs] that [from_rational] hands to the constructor.  The
    remainder shrinks in magnitude at every step, so [|d| + 1] evaluations
    of the condition reach [d == 0] (see [euclid_loop_fuel]). *)
Definition euclid_quotients (numerator denominator : Z) : list Z :=
  euclid_loop (S (Z.abs_nat denominator)) numerator denominator [].

Definition from_rational (numerator denominator : Z) : result ContinuedFraction :=
  if denominator =? 0 then throw invalid_argument
  else ret (ContinuedFraction_of_vector (euclid_quotients numerator denominator)).

(* ------------------------------------------------------------------ *)
(** *** Constant generators *)

(** What the loop of [e_continued_fraction] pushes at index [i >= 1]. *)
Definition e_term (i : nat) : Z :=
  if (i mod 3 =? 2)%nat then Z.of_nat (2 * ((i + 1) / 3)) else 1.

(** The local vector [coeffs] of [e_continued_fraction]. *)
Definition e_coeffs (max_terms : nat) : list Z :=
  2 :: map e_term (seq 1 (max_terms - 1)).

Definition e_continued_fraction (max_terms : nat) : ContinuedFraction :=
  ContinuedFraction_of_vector (e_coeffs max_terms).

(** [static_cast<long long>] of a finite [double]: truncation toward zero. *)
Definition ll_of_double (x : float) : Z :=
  match Prim2SF x with
  | S754_finite s m e =>
      let mag := if 0 <=? e then Z.pos m * 2 ^ e else Z.pos m / 2 ^ (- e) in
      if s then - mag else mag
  | _ => 0
  end.

(** The period loop of [sqrt_continued_fraction], [count] iterations left. *)
Fixpoint sqrt_loop (count : nat) (n a0 m d a : Z) (coeffs : list Z) : list Z :=
  match count with
  | O => coeffs
  | S count' =>
      let m' := Int64.wrap (d * a - m) in
      let d' := Int64.div (Int64.wrap (n - m' * m')) d in
      let a' := Int64.div (Int64.wrap (a0 + m')) d' in
      let coeffs' := coeffs ++ [a'] in
      if a' =? Int64.wrap (2 * a0) then coeffs'
      else sqrt_loop count' n a0 m' d' a' coeffs'
  end.

Definition sqrt_continued_fraction (n : Z) (max_terms : nat)
  : result ContinuedFraction :=
  if n <? 0 then throw invalid_argument
  else
    let a0 := ll_of_double (PrimFloat.sqrt (double_of_ll n)) in
    if Int64.wrap (a0 * a0) =? n then ret (ContinuedFraction_of_int a0)
    else
      let coeffs := sqrt_loop max_terms n a0 0 1 a0 [a0] in
      ret (create_periodic [a0] (tl coeffs)).

(* ================================================================== *)
(** ** Text *)

Local Open Scope string_scope.

(** [oss << long long]: decimal digits, a leading [-] for negatives. *)
Definition print_ll (z : Z) : string :=
  DecimalString.NilEmpty.string_of_int (Z.to_int z).

(** The separator [to_string] writes before coefficient [c]. *)
Definition separator (c : Coefficient) : string :=
  if is_periodic_marker c then "; (" else "; ".

Fixpoint print_tail (v : list Coefficient) : string :=
  match v with
  | [] => ""
  | c :: v' => separator c ++ print_ll (signed_value c) ++ print_tail v'
  end.

(** [to_string]. *)
Definition to_string (cf : ContinuedFraction) : string :=
  match coefficients_ cf with
  | [] => "[0]"
  | c0 :: tl =>
      "[" ++ print_ll (signed_value c0) ++ print_tail tl ++
      (if is_periodic_ cf then ")]" else "]")
  end.

(* ------------------------------------------------------------------ *)
(** *** The input stream *)

(** A [std::istringstream]: the unread characters and the fail state. *)
Record istringstream : Type := {
  buf : string;
  failbit : bool
}.

(** [std::isspace] in the "C" locale. *)
Definition isspace (c : ascii) : bool :=
  let n := nat_of_ascii c in
  ((n =? 32) || ((9 <=? n) && (n <=? 13)))%nat.

Fixpoint skip_ws (s : string) : string :=
  match s with
  | String c s' => if isspace c then skip_ws s' else s
  | EmptyString => EmptyString
  end.

Definition digit_of (c : ascii) : option Z :=
  let n := nat_of_ascii c in
  if ((48 <=? n) && (n <=? 57))%nat then Some (Z.of_nat n - 48)%Z else None.

(** Accumulates the longest run of decimal digits; [seen] records whether
    there was at least one. *)
Fixpoint read_digits (s : string) (acc : Z) (seen : bool) : Z * bool * string :=
  match s with
  | String c s' =>
      match digit_of c with
      | Some d => read_digits s' (acc * 10 + d)%Z true
      | None => (acc, seen, s)
      end
  | EmptyString => (acc, seen, EmptyString)
  end.

Definition stream_fail (s : string) : istringstream :=
  {| buf := s; failbit := true |}.

Definition stream_ok (s : string) : istringstream :=
  {| buf := s; failbit := false |}.

(** [iss >> coeff] for a [long long]; [old] is the variable's value before
    the call.  A stream already failed, or at its end after the white space,
    leaves the variable alone; a field without digits stores [0]; a value
    outside the type stores the nearest bound.  All three set the fail
    state. *)
Definition extract_ll (st : istringstream) (old : Z) : istringstream * Z :=
  if failbit st then (st, old)
  else
    match skip_ws (buf st) with
    | EmptyString => (stream_fail EmptyString, old)
    | String c s' as s =>
        let '(neg, s1) :=
          if Ascii.eqb c "-" then (true, s')
          else if Ascii.eqb c "+" then (false, s')
          else (false, s) in
        let '(mag, seen, rest) := read_digits s1 0%Z false in
        if negb seen then (stream_fail rest, 0%Z)
        else
          let v := if neg then (- mag)%Z else mag in
          if (v <? Int64.min_signed)%Z then (stream_fail rest, Int64.min_signed)
          else if (Int64.max_signed <? v)%Z then (stream_fail rest, Int64.max_signed)
          else (stream_ok rest, v)
    end.

(** [iss >> ch] for a [char]: skips white space, then takes one character. *)
Definition extract_char (st : istringstream) : istringstream * option ascii :=
  if failbit st then (st, None)
  else
    match skip_ws (buf st) with
    | EmptyString => (stream_fail EmptyString, None)
    | String c s' => (stream_ok s', Some c)
    end.

(* ------------------------------------------------------------------ *)
(** *** The reader *)

(** Splits off the last character. *)
Fixpoint split_last (s : string) : option (string * ascii) :=
  match s with
  | EmptyString => None
  | String c EmptyString => Some (EmptyString, c)
  | String c s' =>
      match split_last s' with
      | Some (init, l) => Some (String c init, l)
      | None => None
      end
  end.

Fixpoint no_brackets (s : string) : bool :=
  match s with
  | EmptyString => true
  | String c s' =>
      negb (Ascii.eqb c "[") && negb (Ascii.eqb c "]") && no_brackets s'
  end.

(** [std::regex_match] against [^\[([^\[\]]+)\]$]: the captured group when
    the whole string matches. *)
Definition regex_match (str : string) : option string :=
  match str with
  | String c rest =>
      if Ascii.eqb c "[" then
        match split_last rest with
        | Some (content, l) =>
            if Ascii.eqb l "]" && negb (String.length content =? 0)%nat
               && no_brackets content
            then Some content else None
        | None => None
        end
      else None
  | EmptyString => None
  end.

(** The loop [while (iss >> ch && ch == ';') { iss >> coeff; emplace_back }];
    one unit of fuel is one evaluation of the loop condition. *)
Fixpoint read_rest (fuel : nat) (iss : istringstream) (coeff : Z)
    (v : list Coefficient) : list Coefficient :=
  match fuel with
  | O => v
  | S fuel' =>
      match extract_char iss with
      | (iss1, Some ch) =>
          if Ascii.eqb ch ";" then
            let '(iss2, coeff') := extract_ll iss1 coeff in
            read_rest fuel' iss2 coeff' (v ++ [Coefficient_of coeff'])
          else v
      | (_, None) => v
      end
  end.

(** [parse_string]: the instance after the call and, when the call throws,
    the exception.  The vector is cleared first; every successful
    [iss >> ch] consumes a character, so the loop condition is evaluated at
    most [content.size() + 1] times. *)
Definition parse_string (str : string) (cf : ContinuedFraction)
  : ContinuedFraction * option fault :=
  let cf0 := with_coefficients [] cf in
  match regex_match str with
  | None => (cf0, Some invalid_argument)
  | Some content =>
      let '(iss, coeff) := extract_ll (stream_ok content) 0%Z in
      if failbit iss then (cf0, Some invalid_argument)
      else
        let v := read_rest (S (String.length content)) iss coeff
                           [Coefficient_of coeff] in
        (normalize (with_coefficients v cf0), None)
  end.

(** The members of a [ContinuedFraction] whose constructor body has not run
    yet.  [parse_string] clears the vector and, when it succeeds, overwrites
    every other member through [normalize]. *)
Definition ContinuedFraction_raw : ContinuedFraction :=
  {| coefficients_ := [];
     is_finite_ := false;
     is_periodic_ := false;
     cached_value_ := PrimFloat.zero;
     value_cached_ := false |}.

(** [ContinuedFraction(const std::string&)]. *)
Definition ContinuedFraction_of_string (str : string) : result ContinuedFraction :=
  match parse_string str ContinuedFraction_raw with
  | (cf, None) => ret cf
  | (_, Some f) => throw f
  end.

Local Close Scope string_scope.

(* ================================================================== *)
(** ** The remaining operations *)

(** *** Decimal approximations *)

(** The [double] nearest to [1e-12] and to [1e-15], the two thresholds of
    the implementation. *)
Definition tolerance_1e12 : float := 0x1.19799812dea11p-40%float.
Definition tolerance_1e15 : float := 0x1.203af9ee75616p-50%float.

(** [static_cast<long long>(std::floor(value))].  The conversion is defined
    only for a finite value whose floor fits [long long]; [None] stands for
    the undefined conversion. *)
Definition floor_ll (x : float) : option Z :=
  match Prim2SF x with
  | S754_zero _ => Some 0
  | S754_finite s m e =>
      let z := if s then Z.neg m else Z.pos m in
      let fl := if 0 <=? e then z * 2 ^ e else z / 2 ^ (- e) in
      if (Int64.min_signed <=? fl) && (fl <=? Int64.max_signed)
      then Some fl else None
  | _ => None
  end.

(** The loop of [from_double], [count] iterations left. *)
Fixpoint from_double_loop (count : nat) (value : float) (coeffs : list Z)
  : option (list Z) :=
  match count with
  | O => Some coeffs
  | S count' =>
      match floor_ll value with
      | None => None
      | Some integer_part =>
          let coeffs' := coeffs ++ [integer_part] in
          let fractional := PrimFloat.sub value (double_of_ll integer_part) in
          if PrimFloat.ltb (PrimFloat.abs fractional) tolerance_1e12
          then Some coeffs'
          else from_double_loop count' (PrimFloat.div PrimFloat.one fractional)
                                coeffs'
      end
  end.

(** [from_double]. *)
Definition from_double (value : float) (max_terms : nat)
  : option ContinuedFraction :=
  match from_double_loop max_terms value [] with
  | Some coeffs => Some (ContinuedFraction_of_vector coeffs)
  | None => None
  end.

(** The default of the parameter [max_terms]. *)
Definition default_max_terms : nat := 20.

(** The literal [3.14159265358979323846] as a [double]. *)
Definition pi_literal : float := 0x1.921fb54442d18p+1%float.

(** [pi_continued_fraction]. *)
Definition pi_continued_fraction (max_terms : nat) : option ContinuedFraction :=
  from_double pi_literal max_terms.

(** *** Arithmetic through the evaluator *)

(** The operands are [const]; the evaluator fills their caches, which does
    not change what any later call returns (see [to_double_cached]), so the
    operators are modelled by their results. *)
Definition operator_add (a b : ContinuedFraction) : option ContinuedFraction :=
  from_double (PrimFloat.add (fst (to_double a)) (fst (to_double b)))
              default_max_terms.

Definition operator_sub (a b : ContinuedFraction) : option ContinuedFraction :=
  from_double (PrimFloat.sub (fst (to_double a)) (fst (to_double b)))
              default_max_terms.

Definition operator_mul (a b : ContinuedFraction) : option ContinuedFraction :=
  from_double (PrimFloat.mul (fst (to_double a)) (fst (to_double b)))
              default_max_terms.

(** [operator/]: the zero test throws before anything is converted. *)
Definition operator_div (a b : ContinuedFraction)
  : result (option ContinuedFraction) :=
  if PrimFloat.ltb (PrimFloat.abs (fst (to_double b))) tolerance_1e15
  then throw runtime_error
  else ret (from_double (PrimFloat.div (fst (to_double a)) (fst (to_double b)))
                        default_max_terms).

(** *** Ordering through the evaluator *)

Definition operator_lt (a b : ContinuedFraction) : bool :=
  PrimFloat.ltb (fst (to_double a)) (fst (to_double b)).

Definition operator_le (a b : ContinuedFraction) : bool :=
  PrimFloat.leb (fst (to_double a)) (fst (to_double b)).

Definition operator_gt (a b : ContinuedFraction) : bool :=
  PrimFloat.ltb (fst (to_double b)) (fst (to_double a)).

Definition operator_ge (a b : ContinuedFraction) : bool :=
  PrimFloat.leb (fst (to_double b)) (fst (to_double a)).

(** *** The greatest common divisor *)

(** The loop [while (b != 0)] of [gcd]; one unit of fuel is one evaluation of
    the condition. *)
Fixpoint gcd_loop (fuel : nat) (a b : Z) : Z :=
  match fuel with
  | O => a
  | S fuel' =>
      if b =? 0 then a
      else gcd_loop fuel' b (Int64.rem a b)
  end.

(** [gcd]: the remainder shrinks in magnitude, so [|b| + 1] evaluations of
    the condition are enough (see [gcd_loop_fuel]). *)
Definition gcd (a b : Z) : Z :=
  Int64.wrap (Z.abs (gcd_loop (S (Z.abs_nat b)) a b)).

(* ================================================================== *)
(** ** Vocabulary of the properties *)

(** No coefficient at an index above [0] has magnitude zero. *)
Definition no_zero_after_first (v : list Coefficient) : bool :=
  match v with
  | [] => true
  | _ :: tl => forallb (fun c => negb (value c =? 0)) tl
  end.

(** No interior position (neither the first nor the last) holds a
    non-negative [1] without the periodic marker. *)
Fixpoint no_interior_one (v : list Coefficient) : bool :=
  match v with
  | _ :: tl =>
      match tl with
      | c1 :: _ :: _ => negb (is_plain_one c1) && no_interior_one tl
      | _ => true
      end
  | [] => true
  end.

(** The canonical state of a coefficient sequence. *)
Definition canonical (v : list Coefficient) : bool :=
  no_zero_after_first v && no_interior_one v.

Definition has_marker (v : list Coefficient) : bool :=
  existsb is_periodic_marker v.

(** A coefficient as the constructor builds it from a [long long]. *)
Definition Coefficient_wf (c : Coefficient) : Prop :=
  Int64.in_range (signed_value c) /\
  c = Coefficient_ctor (signed_value c) false (is_periodic_marker c).

(** What every constructor establishes: constructor-built coefficients and
    flags that agree with the markers. *)
Definition ContinuedFraction_wf (cf : ContinuedFraction) : Prop :=
  Forall Coefficient_wf (coefficients_ cf) /\
  is_periodic_ cf = has_marker (coefficients_ cf) /\
  is_finite_ cf = negb (is_periodic_ cf).

(** The exact value [a0 + 1/(a1 + 1/(a2 + ...))] of a finite coefficient
    list. *)
Fixpoint cf_value (l : list Z) : Q :=
  match l with
  | [] => 0%Q
  | a :: rest =>
      match rest with
      | [] => inject_Z a
      | _ => (inject_Z a + / cf_value rest)%Q
      end
  end.

(** The quotient sequence of the Euclidean algorithm, as the specification
    words it: take quotient and remainder of (numerator, denominator), push
    the quotient, continue with (denominator, remainder) until the remainder
    is zero. *)
Inductive euclid_spec : Z -> Z -> list Z -> Prop :=
| euclid_last n d :
    d <> 0 -> Z.rem n d = 0 -> euclid_spec n d [Z.quot n d]
| euclid_step n d qs :
    d <> 0 -> Z.rem n d <> 0 -> euclid_spec d (Z.rem n d) qs ->
    euclid_spec n d (Z.quot n d :: qs).

(** A simple continued fraction in canonical form: every quotient after the
    first is at least 1 and, when there is more than one, the last is at
    least 2. *)
Definition simple_canonical (qs : list Z) : Prop :=
  match qs with
  | [] => False
  | _ :: rest => Forall (fun q => 1 <= q) rest /\ (rest <> [] -> 2 <= last rest 0)
  end.

(** Arguments for which no division of [from_rational] leaves [long long]:
    the only overflowing quotient is [min_signed / -1]. *)
Definition euclid_no_overflow (n d : Z) : Prop :=
  Int64.in_range n /\ Int64.min_signed < d <= Int64.max_signed /\
  ~ (n = Int64.min_signed /\ d = -1).

(** Decimal digits, for the text lemmas. *)
Definition is_digit (c : ascii) : bool :=
  match digit_of c with Some _ => true | None => false end.

Fixpoint all_digits (s : string) : bool :=
  match s with
  | EmptyString => true
  | String c s' => is_digit c && all_digits s'
  end.

(** What may follow a printed number for the reader to stop there: the end
    of the text or a character that is not a digit. *)
Definition starts_nondigit (s : string) : Prop :=
  match s with
  | EmptyString => True
  | String c _ => digit_of c = None
  end.

(** The [double] nearest to [1e-6] (what the literal denotes in C++). *)
Definition tolerance_1e6 : float := 0x1.0c6f7a0b5ed8dp-20%float.

(** The sum of the magnitudes of a coefficient sequence. *)
Definition abs_sum (v : list Coefficient) : Z :=
  fold_right (fun c s => Z.abs (signed_value c) + s) 0 v.

(** A coefficient that is positive and plainly stored. *)
Definition positive_coefficient (c : Coefficient) : Prop :=
  is_negative c = false /\ 1 <= value c.

(** The invariant of the merge loop on sequences that are positive after
    the first coefficient: positions [1 .. i] hold no plain 1 that has a
    successor, and no sum can overflow. *)
Record merge_invariant (i : nat) (v : list Coefficient) : Prop := {
  inv_tail : Forall positive_coefficient (tl v);
  inv_sum : abs_sum v <= Int64.max_signed;
  inv_done : forall j c, (1 <= j <= i)%nat -> (j + 1 < length v)%nat ->
             nth_error v j = Some c -> is_plain_one c = false
}.

(** The number of coefficients that carry the periodic marker. *)
Definition count_markers (v : list Coefficient) : nat :=
  length (filter is_periodic_marker v).

(** What [operator==] compares of a coefficient. *)
Definition coefficient_key (c : Coefficient) : Z * bool :=
  (signed_value c, is_periodic_marker c).

(** The loop of [compute_convergent] with its whole state
    (prev_num, prev_den, curr_num, curr_den) as the result. *)
Fixpoint convergent_states (v : list Coefficient) (count i : nat)
    (prev_num prev_den curr_num curr_den : Z) : result (Z * Z * Z * Z) :=
  match count with
  | O => ret (prev_num, prev_den, curr_num, curr_den)
  | S count' =>
      c <- vec_at v (i mod length v) ;;
      let coeff := signed_value c in
      let new_num := Int64.wrap (coeff * curr_num + prev_num) in
      let new_den := Int64.wrap (coeff * curr_den + prev_den) in
      convergent_states v count' (S i) curr_num curr_den new_num new_den
  end.

(** The numerator/denominator recurrence over the integers, without
    wrap-around: the state (p_prev, q_prev, p, q) after the partial
    quotients of [l]. *)
Fixpoint recurrence (l : list Z) (p_prev q_prev p q : Z) : Z * Z * Z * Z :=
  match l with
  | [] => (p_prev, q_prev, p, q)
  | a :: l' => recurrence l' p q (a * p + p_prev) (a * q + q_prev)
  end.

(** The exact numerator and denominator of the continued fraction
    [a0; rest]. *)
Definition exact_convergent (l : list Z) : Z * Z :=
  match l with
  | [] => (0, 1)
  | a0 :: rest => let '(_, _, p, q) := recurrence rest 1 0 a0 1 in (p, q)
  end.

(** The coefficient the recurrence of [compute_convergent] uses at index
    [i]: the stored sequence repeated as a whole. *)
Definition cyclic_coefficient (v : list Coefficient) (i : nat) : Z :=
  signed_value (nth (i mod length v) v (Coefficient_of 0)).

(** The coefficients used for the convergent of index [n]. *)
Definition used_coefficients (v : list Coefficient) (n : nat) : list Z :=
  map (cyclic_coefficient v) (seq 0 (S n)).

(** The cache, when it is marked valid, holds what the evaluator computes
    from the stored coefficients. *)
Definition cache_coherent (cf : ContinuedFraction) : Prop :=
  value_cached_ cf = true -> cached_value_ cf = fold_value (coefficients_ cf).

(* ================================================================== *)
(** * Properties *)

(** ** Machine integers *)

Lemma wrap_in_range z : Int64.in_range (Int64.wrap z).
Proof.
  unfold Int64.in_range, Int64.wrap, Int64.min_signed, Int64.max_signed,
    Int64.modulus.
  pose proof (Z.mod_pos_bound (z + 2 ^ 63) (2 ^ 64) ltac:(lia)). lia.
Qed.

Lemma wrap_small z : Int64.in_range z -> Int64.wrap z = z.
Proof.
  unfold Int64.in_range, Int64.wrap, Int64.min_signed, Int64.max_signed,
    Int64.modulus.
  intros H. rewrite Z.mod_small; lia.
Qed.

(** ** Vectors *)

Lemma length_vec_set {A} i (x : A) v :
  (i < length v)%nat -> length (vec_set i x v) = length v.
Proof.
  intros H. unfold vec_set.
  rewrite length_app. cbn [length]. rewrite length_firstn, length_skipn. lia.
Qed.

Lemma length_vec_erase {A} a b (v : list A) :
  (a <= b)%nat -> (b <= length v)%nat ->
  (length (vec_erase a b v) + (b - a) = length v)%nat.
Proof.
  intros Hab Hb. unfold vec_erase.
  rewrite length_app, length_firstn, length_skipn. lia.
Qed.

(** ** Termination of the loops: the fuel given is enough *)

Lemma merge_loop_S fuel i v :
  merge_loop (S fuel) i v =
  if (i + 2 <? length v)%nat then
    match nth_error v i, nth_error v (i + 1), nth_error v (i + 2) with
    | Some ci, Some c1, Some c2 =>
        if is_plain_one c1 then
          merge_loop fuel i
            (vec_erase (i + 1) (i + 3)
               (vec_set i
                  (Coefficient_of (Int64.wrap (signed_value ci + signed_value c2)))
                  v))
        else merge_loop fuel (i + 1) v
    | _, _, _ => v
    end
  else v.
Proof. reflexivity. Qed.

Lemma euclid_loop_S fuel n d acc :
  euclid_loop (S fuel) n d acc =
  if d =? 0 then acc
  else euclid_loop fuel d (Int64.rem n d) (acc ++ [Int64.div n d]).
Proof. reflexivity. Qed.

(** Once [size() - i - 2] evaluations of the condition are paid for, the
    merge loop has stopped: more fuel does not change its result. *)
Lemma merge_loop_fuel_S fuel : forall i v,
  (length v <= fuel + i + 2)%nat ->
  merge_loop (S fuel) i v = merge_loop fuel i v.
Proof.
  induction fuel as [|fuel IH]; intros i v Hlen.
  - cbn [merge_loop].
    destruct (i + 2 <? length v)%nat eqn:E; [|reflexivity].
    apply Nat.ltb_lt in E. lia.
  - rewrite (merge_loop_S (S fuel) i v), (merge_loop_S fuel i v).
    destruct (i + 2 <? length v)%nat eqn:E; [|reflexivity].
    apply Nat.ltb_lt in E.
    destruct (nth_error v i) as [ci|]; [|reflexivity].
    destruct (nth_error v (i + 1)) as [c1|]; [|reflexivity].
    destruct (nth_error v (i + 2)) as [c2|]; [|reflexivity].
    destruct (is_plain_one c1).
    + apply IH.
      pose proof (length_vec_erase (i + 1) (i + 3)
        (vec_set i (Coefficient_of (Int64.wrap (signed_value ci + signed_value c2))) v))
        as HL.
      rewrite length_vec_set in HL by lia.
      specialize (HL ltac:(lia) ltac:(lia)). lia.
    + apply IH. lia.
Qed.

Lemma merge_loop_fuel k : forall fuel i v,
  (length v <= fuel + i + 2)%nat ->
  merge_loop (fuel + k) i v = merge_loop fuel i v.
Proof.
  induction k as [|k IH]; intros fuel i v H.
  - now rewrite Nat.add_0_r.
  - rewrite Nat.add_succ_r, merge_loop_fuel_S by lia. now apply IH.
Qed.

(** [normalize] runs its loop to the end. *)
Lemma normalize_coefficients_total v k :
  merge_loop (length (remove_zeros v) + k) 0 (remove_zeros v)
  = normalize_coefficients v.
Proof. unfold normalize_coefficients. apply merge_loop_fuel. lia. Qed.

Lemma euclid_loop_acc fuel : forall n d acc,
  euclid_loop fuel n d acc = acc ++ euclid_loop fuel n d [].
Proof.
  induction fuel as [|fuel IH]; intros n d acc; cbn [euclid_loop].
  - now rewrite app_nil_r.
  - destruct (d =? 0); [now rewrite app_nil_r|].
    rewrite IH. rewrite (IH _ _ ([] ++ _)). cbn [app]. now rewrite <- app_assoc.
Qed.

(** The remainder is smaller than the divisor, so [|d| + 1] evaluations of
    [d != 0] see the loop of [from_rational] leave. *)
Lemma euclid_loop_fuel_S fuel : forall n d acc,
  (Z.abs d < Z.of_nat fuel) ->
  euclid_loop (S fuel) n d acc = euclid_loop fuel n d acc.
Proof.
  induction fuel as [|fuel IH]; intros n d acc H; [lia|].
  rewrite (euclid_loop_S (S fuel) n d acc), (euclid_loop_S fuel n d acc).
  destruct (Z.eqb_spec d 0) as [|Hd]; [reflexivity|].
  apply IH.
  unfold Int64.rem.
  pose proof (Z.rem_bound_abs n d Hd). lia.
Qed.

Lemma euclid_loop_fuel k : forall n d,
  euclid_loop (S (Z.abs_nat d) + k) n d [] = euclid_quotients n d.
Proof.
  unfold euclid_quotients.
  induction k as [|k IH]; intros n d.
  - now rewrite Nat.add_0_r.
  - rewrite Nat.add_succ_r, euclid_loop_fuel_S by lia. apply IH.
Qed.

(** The reader's loop terminates within its fuel *)

Lemma skip_ws_length s : (String.length (skip_ws s) <= String.length s)%nat.
Proof.
  induction s as [|c s IH]; [reflexivity|].
  cbn [skip_ws]. destruct (isspace c); cbn [String.length]; lia.
Qed.

Lemma read_digits_length s : forall acc seen,
  (String.length (snd (read_digits s acc seen)) <= String.length s)%nat.
Proof.
  induction s as [|c s IH]; intros acc seen; [reflexivity|].
  cbn [read_digits]. destruct (digit_of c).
  - specialize (IH (acc * 10 + z) true). cbn [String.length]. lia.
  - reflexivity.
Qed.

Lemma extract_char_length iss iss1 ch :
  extract_char iss = (iss1, Some ch) ->
  failbit iss1 = false /\
  (String.length (buf iss1) < String.length (buf iss))%nat.
Proof.
  unfold extract_char. destruct (failbit iss); [discriminate|].
  pose proof (skip_ws_length (buf iss)) as H.
  destruct (skip_ws (buf iss)) as [|c s]; [discriminate|].
  intros [= <- <-]. cbn [failbit buf stream_ok String.length] in *. split; [reflexivity|lia].
Qed.

Lemma extract_char_failed iss :
  failbit iss = true -> extract_char iss = (iss, None).
Proof. unfold extract_char. now intros ->. Qed.

Lemma extract_ll_length iss old :
  failbit (fst (extract_ll iss old)) = true \/
  (String.length (buf (fst (extract_ll iss old))) <= String.length (buf iss))%nat.
Proof.
  unfold extract_ll. destruct (failbit iss) eqn:Ef; [left; exact Ef|].
  pose proof (skip_ws_length (buf iss)) as H.
  destruct (skip_ws (buf iss)) as [|c s]; [left; reflexivity|].
  set (p := if Ascii.eqb c "-" then (true, s)
            else if Ascii.eqb c "+" then (false, s) else (false, String c s)).
  assert (Hp : (String.length (snd p) <= String.length (String c s))%nat).
  { unfold p. destruct (Ascii.eqb c "-"); [cbn; lia|].
    destruct (Ascii.eqb c "+"); cbn; lia. }
  destruct p as [neg s1]. cbn [snd] in Hp.
  pose proof (read_digits_length s1 0 false) as Hr.
  destruct (read_digits s1 0 false) as [[mag seen] rest]. cbn [snd] in Hr.
  destruct (negb seen); [left; reflexivity|].
  destruct (_ <? Int64.min_signed); [left; reflexivity|].
  destruct (Int64.max_signed <? _); [left; reflexivity|].
  right. cbn [fst buf stream_ok]. lia.
Qed.

Lemma read_rest_S fuel iss coeff v :
  read_rest (S fuel) iss coeff v =
  match extract_char iss with
  | (iss1, Some ch) =>
      if Ascii.eqb ch ";" then
        let '(iss2, coeff') := extract_ll iss1 coeff in
        read_rest fuel iss2 coeff' (v ++ [Coefficient_of coeff'])
      else v
  | (_, None) => v
  end.
Proof. reflexivity. Qed.

Lemma read_rest_fuel_S fuel : forall iss coeff v,
  failbit iss = true \/ (String.length (buf iss) < fuel)%nat ->
  read_rest (S fuel) iss coeff v = read_rest fuel iss coeff v.
Proof.
  induction fuel as [|fuel IH]; intros iss coeff v H.
  - destruct H as [H|H]; [|lia].
    rewrite read_rest_S, extract_char_failed by assumption. reflexivity.
  - rewrite (read_rest_S (S fuel) iss coeff v), (read_rest_S fuel iss coeff v).
    destruct (extract_char iss) as [iss1 [ch|]] eqn:E; [|reflexivity].
    destruct (Ascii.eqb ch ";"); [|reflexivity].
    pose proof (extract_ll_length iss1 coeff) as Hl.
    destruct (extract_ll iss1 coeff) as [iss2 coeff']. cbn [fst] in Hl.
    apply IH.
    destruct Hl as [Hl|Hl]; [now left|].
    destruct H as [H|H].
    + rewrite extract_char_failed in E by assumption. discriminate.
    + apply extract_char_length in E as [_ E]. right. lia.
Qed.

(** More fuel than [parse_string] gives does not change what is read. *)
Lemma read_rest_fuel k : forall iss coeff v,
  read_rest (S (String.length (buf iss)) + k) iss coeff v
  = read_rest (S (String.length (buf iss))) iss coeff v.
Proof.
  induction k as [|k IH]; intros iss coeff v.
  - now rewrite Nat.add_0_r.
  - rewrite Nat.add_succ_r, read_rest_fuel_S by (right; lia). apply IH.
Qed.

(* ================================================================== *)
(** ** The class invariant *)

Lemma signed_value_ctor v m :
  Int64.in_range v -> signed_value (Coefficient_ctor v false m) = v.
Proof.
  unfold Int64.in_range, Int64.min_signed, Int64.max_signed.
  intros Hv. unfold signed_value, Coefficient_ctor. cbn [is_negative value].
  rewrite orb_false_r.
  destruct (Z.ltb_spec v 0) as [Hneg|Hpos].
  - destruct (Z.eq_dec v (- 2 ^ 63)) as [->|Hmin]; [reflexivity|].
    rewrite (wrap_small (Z.abs v)), wrap_small;
      unfold Int64.in_range, Int64.min_signed, Int64.max_signed; lia.
  - rewrite wrap_small; unfold Int64.in_range, Int64.min_signed, Int64.max_signed; lia.
Qed.

Lemma Coefficient_ctor_wf v m :
  Int64.in_range v -> Coefficient_wf (Coefficient_ctor v false m).
Proof.
  intros Hv. unfold Coefficient_wf.
  rewrite signed_value_ctor by assumption. split; [assumption|reflexivity].
Qed.

Lemma Forall_firstn_skipn {A} (P : A -> Prop) n v :
  Forall P v -> Forall P (firstn n v) /\ Forall P (skipn n v).
Proof. intros H. rewrite <- (firstn_skipn n v) in H. now apply Forall_app in H. Qed.

Lemma Forall_vec_set {A} (P : A -> Prop) i x v :
  P x -> Forall P v -> Forall P (vec_set i x v).
Proof.
  intros Hx Hv. unfold vec_set. apply Forall_app. split.
  - now apply Forall_firstn_skipn.
  - constructor; [assumption|now apply Forall_firstn_skipn].
Qed.

Lemma Forall_vec_erase {A} (P : A -> Prop) a b v :
  Forall P v -> Forall P (vec_erase a b v).
Proof.
  intros Hv. unfold vec_erase. apply Forall_app. split.
  - now apply Forall_firstn_skipn.
  - now apply Forall_firstn_skipn.
Qed.

Lemma remove_zeros_wf v :
  Forall Coefficient_wf v -> Forall Coefficient_wf (remove_zeros v).
Proof.
  intros H. unfold remove_zeros.
  destruct (1 <? length v)%nat; [|assumption].
  destruct v as [|c0 tl]; [constructor|].
  inversion H as [|? ? H0 Htl]; subst. constructor; [assumption|].
  apply Forall_forall. intros c Hc. apply filter_In in Hc as [Hc _].
  rewrite Forall_forall in Htl. now apply Htl.
Qed.

Lemma merge_loop_wf fuel : forall i v,
  Forall Coefficient_wf v -> Forall Coefficient_wf (merge_loop fuel i v).
Proof.
  induction fuel as [|fuel IH]; intros i v H; [assumption|].
  rewrite merge_loop_S.
  destruct (i + 2 <? length v)%nat; [|assumption].
  destruct (nth_error v i); [|assumption].
  destruct (nth_error v (i + 1)) as [c1|]; [|assumption].
  destruct (nth_error v (i + 2)); [|assumption].
  destruct (is_plain_one c1); [|now apply IH].
  apply IH, Forall_vec_erase, Forall_vec_set; [|assumption].
  apply Coefficient_ctor_wf, wrap_in_range.
Qed.

(** [normalize] re-establishes the class invariant on constructor-built
    coefficients. *)
Lemma normalize_wf cf :
  Forall Coefficient_wf (coefficients_ cf) -> ContinuedFraction_wf (normalize cf).
Proof.
  intros H. unfold ContinuedFraction_wf, normalize.
  cbn [invalidate_cache update_flags with_coefficients coefficients_
       is_periodic_ is_finite_].
  split; [|split; reflexivity].
  unfold normalize_coefficients. now apply merge_loop_wf, remove_zeros_wf.
Qed.

Lemma ContinuedFraction_of_vector_wf coeffs :
  Forall Int64.in_range coeffs ->
  ContinuedFraction_wf (ContinuedFraction_of_vector coeffs).
Proof.
  intros H. unfold ContinuedFraction_of_vector. apply normalize_wf.
  cbn [coefficients_]. apply Forall_map.
  eapply Forall_impl; [|exact H].
  intros v Hv. now apply Coefficient_ctor_wf.
Qed.

(* ================================================================== *)
(** ** Normalization and the periodic marker *)

(** The merge test never selects a coefficient that carries the marker:
    the marker is never the "1" of a merge. *)
Lemma marker_is_not_plain_one c :
  is_periodic_marker c = true -> is_plain_one c = false.
Proof.
  intros H. unfold is_plain_one. rewrite H. cbn. now rewrite andb_false_r.
Qed.

(** C1, code defect.  The claim: a coefficient carrying the periodic marker
    survives [normalize()], so the fraction stays periodic.  The merge guards
    only its middle position: on [create_periodic({1, 1}, {2})] the marked
    coefficient is the right neighbour of a plain 1 and is erased, and in
    [sqrt_continued_fraction(7, 20)], that is [create_periodic({2},
    {1, 1, 1, 4})], it is the left neighbour and is overwritten by an unmarked
    sum; both results carry no marker and report [is_periodic() == false]. *)
Theorem normalize_absorbs_periodic_marker :
  let v := map Coefficient_of [1; 1] ++ [Coefficient_ctor 2 false true] in
  has_marker v = true /\
  has_marker (normalize_coefficients v) = false /\
  get_coefficients (create_periodic [1; 1] [2]) = [3] /\
  is_periodic (create_periodic [1; 1] [2]) = false /\
  (cf <- sqrt_continued_fraction 7 20 ;;
   ret (get_coefficients cf, has_marker (coefficients_ cf), is_periodic cf))
  = ret ([2; 2; 4], false, false).
Proof. vm_compute. repeat split; reflexivity. Qed.

(* ================================================================== *)
(** ** The canonical state *)

(** Normalization leaves a canonical sequence as it is. *)

Lemma remove_zeros_canonical v :
  no_zero_after_first v = true -> remove_zeros v = v.
Proof.
  unfold remove_zeros, no_zero_after_first.
  destruct v as [|c0 tl]; [reflexivity|]. intros H.
  destruct (1 <? length (c0 :: tl))%nat; [|reflexivity].
  now rewrite forallb_filter_id.
Qed.

Lemma no_interior_one_nth v : no_interior_one v = true ->
  forall i c1, (i + 2 < length v)%nat -> nth_error v (i + 1) = Some c1 ->
  is_plain_one c1 = false.
Proof.
  induction v as [|c0 tl IH]; intros H i c1 Hlen Hnth; [cbn in Hlen; lia|].
  destruct tl as [|c1' [|c2 tl2]]; cbn [length] in Hlen; try lia.
  cbn [no_interior_one] in H. apply andb_true_iff in H as [H1 H2].
  destruct i as [|i].
  - cbn in Hnth. injection Hnth as <-. now apply negb_true_iff.
  - apply (IH H2 i); [cbn [length]; lia|exact Hnth].
Qed.

Lemma merge_loop_canonical fuel : forall i v,
  no_interior_one v = true -> merge_loop fuel i v = v.
Proof.
  induction fuel as [|fuel IH]; intros i v H; [reflexivity|].
  rewrite merge_loop_S.
  destruct (i + 2 <? length v)%nat eqn:E; [|reflexivity].
  apply Nat.ltb_lt in E.
  destruct (nth_error v i); [|reflexivity].
  destruct (nth_error v (i + 1)) as [c1|] eqn:E1; [|reflexivity].
  destruct (nth_error v (i + 2)); [|reflexivity].
  rewrite (no_interior_one_nth v H i c1 E E1). now apply IH.
Qed.

Lemma normalize_coefficients_canonical v :
  canonical v = true -> normalize_coefficients v = v.
Proof.
  unfold canonical. intros H. apply andb_true_iff in H as [H0 H1].
  unfold normalize_coefficients.
  rewrite remove_zeros_canonical by assumption. now apply merge_loop_canonical.
Qed.

Lemma abs_sum_app a b : abs_sum (a ++ b) = abs_sum a + abs_sum b.
Proof. induction a as [|c a IH]; cbn; [reflexivity|]. unfold abs_sum in *. cbn. lia. Qed.

Lemma abs_sum_nonneg v : 0 <= abs_sum v.
Proof. induction v as [|c v IH]; cbn; [lia|]. unfold abs_sum in *. lia. Qed.

Lemma positive_signed_value c :
  positive_coefficient c -> signed_value c = value c /\ 1 <= signed_value c.
Proof. intros [Hn Hv]. unfold signed_value. rewrite Hn. split; [reflexivity|assumption]. Qed.

Lemma split_at3 {A} (v : list A) i :
  (i + 2 < length v)%nat ->
  exists pre ci c1 c2 post,
    v = pre ++ ci :: c1 :: c2 :: post /\ length pre = i.
Proof.
  intros H. exists (firstn i v).
  pose proof (firstn_skipn i v) as E.
  pose proof (length_skipn i v) as L.
  destruct (skipn i v) as [|ci [|c1 [|c2 post]]]; cbn [length] in L; try lia.
  exists ci, c1, c2, post. split; [now symmetry|].
  rewrite length_firstn. lia.
Qed.

Lemma nth_error_split3 {A} (pre : list A) ci c1 c2 post :
  let v := pre ++ ci :: c1 :: c2 :: post in
  nth_error v (length pre) = Some ci /\
  nth_error v (length pre + 1) = Some c1 /\
  nth_error v (length pre + 2) = Some c2.
Proof.
  cbn zeta. repeat split.
  - rewrite nth_error_app2, Nat.sub_diag by lia. reflexivity.
  - rewrite nth_error_app2 by lia.
    replace (length pre + 1 - length pre)%nat with 1%nat by lia. reflexivity.
  - rewrite nth_error_app2 by lia.
    replace (length pre + 2 - length pre)%nat with 2%nat by lia. reflexivity.
Qed.

Lemma merge_shape {A} (pre : list A) ci c1 c2 post x :
  vec_erase (length pre + 1) (length pre + 3)
    (vec_set (length pre) x (pre ++ ci :: c1 :: c2 :: post))
  = pre ++ x :: post.
Proof.
  unfold vec_erase, vec_set.
  induction pre as [|a pre IH]; [reflexivity|].
  cbn [length app]. rewrite !Nat.add_succ_l.
  cbn [firstn skipn app]. f_equal. exact IH.
Qed.

Lemma Coefficient_of_positive s :
  2 <= s <= Int64.max_signed ->
  positive_coefficient (Coefficient_of s) /\ value (Coefficient_of s) = s.
Proof.
  intros Hs. unfold positive_coefficient, Coefficient_of, Coefficient_ctor.
  cbn [is_negative value]. rewrite orb_false_r.
  rewrite wrap_small
    by (unfold Int64.in_range, Int64.min_signed, Int64.max_signed in *; lia).
  destruct (Z.ltb_spec s 0); [lia|]. repeat split; lia.
Qed.

Lemma plain_one_value c : is_plain_one c = true -> value c = 1 /\ is_negative c = false.
Proof.
  unfold is_plain_one. intros H.
  apply andb_true_iff in H as [H _]. apply andb_true_iff in H as [H1 H2].
  apply Z.eqb_eq in H1. apply negb_true_iff in H2. now split.
Qed.

(** One merge keeps the invariant. *)
Lemma merge_invariant_merge pre ci c1 c2 post :
  let v := pre ++ ci :: c1 :: c2 :: post in
  let s := Int64.wrap (signed_value ci + signed_value c2) in
  merge_invariant (length pre) v ->
  is_plain_one c1 = true ->
  merge_invariant (length pre) (pre ++ Coefficient_of s :: post).
Proof.
  cbn zeta. intros [Htail Hsum Hdone] H1.
  destruct (plain_one_value c1 H1) as [Hv1 Hn1].
  assert (Hsv1 : signed_value c1 = 1) by (unfold signed_value; now rewrite Hn1).
  rewrite abs_sum_app in Hsum. cbn [abs_sum fold_right] in Hsum.
  fold (abs_sum post) in Hsum.
  pose proof (abs_sum_nonneg pre) as Hpre.
  pose proof (abs_sum_nonneg post) as Hpost.
  set (s := signed_value ci + signed_value c2) in *.
  assert (Hrange : Int64.in_range s).
  { unfold Int64.in_range, Int64.min_signed, Int64.max_signed in *. lia. }
  rewrite (wrap_small _ Hrange).
  assert (Hnew : signed_value (Coefficient_of s) = s)
    by (apply signed_value_ctor, Hrange).
  assert (Hsum' : abs_sum (pre ++ Coefficient_of s :: post) <= Int64.max_signed).
  { rewrite abs_sum_app. cbn [abs_sum fold_right]. fold (abs_sum post).
    rewrite Hnew. lia. }
  destruct pre as [|c0 pre'].
  - (* the merge is at the head of the sequence *)
    cbn [app tl] in Htail |- *.
    inversion Htail as [|? ? _ Ht1]; subst.
    inversion Ht1 as [|? ? _ Hpostp]; subst.
    constructor; [exact Hpostp|exact Hsum'|].
    intros j c Hj. cbn [length] in Hj. lia.
  - cbn [app tl] in Htail.
    apply Forall_app in Htail as [Hpre' Hrest].
    inversion Hrest as [|? ? Hci Hr1]; subst.
    inversion Hr1 as [|? ? _ Hr2]; subst.
    inversion Hr2 as [|? ? Hc2 Hpostp]; subst.
    destruct (positive_signed_value ci Hci) as [Eci Pci].
    destruct (positive_signed_value c2 Hc2) as [Ec2 Pc2].
    assert (Hs : 2 <= s <= Int64.max_signed) by (unfold s; lia).
    destruct (Coefficient_of_positive _ Hs) as [Hp Hval].
    constructor; [|exact Hsum'|].
    + cbn [app tl]. apply Forall_app. split; [assumption|]. now constructor.
    + intros j c Hj Hlen Hnth.
      destruct (Nat.eq_dec j (length (c0 :: pre'))) as [->|Hne].
      * rewrite nth_error_app2, Nat.sub_diag in Hnth by lia.
        cbn [nth_error] in Hnth. injection Hnth as <-.
        unfold is_plain_one. rewrite Hval.
        destruct (Z.eqb_spec s 1); [lia|reflexivity].
      * apply (Hdone j c); [lia| |].
        -- rewrite length_app in *. cbn [length] in *. lia.
        -- rewrite nth_error_app1 in * by lia. exact Hnth.
Qed.

(** Moving on keeps the invariant. *)
Lemma merge_invariant_advance i v c1 :
  merge_invariant i v -> nth_error v (i + 1) = Some c1 ->
  is_plain_one c1 = false -> merge_invariant (i + 1) v.
Proof.
  intros [Htail Hsum Hdone] Hnth H1. constructor; [assumption..|].
  intros j c Hj Hlen Hc.
  destruct (Nat.eq_dec j (i + 1)) as [->|Hne].
  - rewrite Hnth in Hc. now injection Hc as <-.
  - apply (Hdone j c); [lia|assumption..].
Qed.

Lemma merge_loop_invariant fuel : forall i v,
  merge_invariant i v -> (length v <= fuel + i + 2)%nat ->
  exists i', merge_invariant i' (merge_loop fuel i v) /\
             (length (merge_loop fuel i v) <= i' + 2)%nat.
Proof.
  induction fuel as [|fuel IH]; intros i v Hinv Hlen.
  - exists i. split; [assumption|cbn [merge_loop]; lia].
  - rewrite merge_loop_S.
    destruct (Nat.ltb_spec (i + 2) (length v)) as [E|E].
    2: { exists i. split; [assumption|lia]. }
    destruct (split_at3 v i E) as (pre & ci & c1 & c2 & post & -> & <-).
    destruct (nth_error_split3 pre ci c1 c2 post) as (-> & -> & ->).
    destruct (is_plain_one c1) eqn:H1.
    + rewrite merge_shape. apply IH.
      * now apply (merge_invariant_merge pre ci c1 c2 post).
      * rewrite !length_app in *. cbn [length] in *. lia.
    + apply IH.
      * eapply merge_invariant_advance; [eassumption| |eassumption].
        apply nth_error_split3.
      * lia.
Qed.

(** From the index characterization back to the boolean test. *)
Lemma no_interior_one_intro v :
  (forall j c, (1 <= j)%nat -> (j + 1 < length v)%nat ->
               nth_error v j = Some c -> is_plain_one c = false) ->
  no_interior_one v = true.
Proof.
  induction v as [|c0 tl IH]; intros H; [reflexivity|].
  cbn [no_interior_one].
  destruct tl as [|c1 [|c2 tl2]]; [reflexivity..|].
  apply andb_true_iff. split.
  - apply negb_true_iff. apply (H 1%nat c1); [lia|cbn [length]; lia|reflexivity].
  - apply IH. intros j c Hj Hlen Hnth.
    apply (H (S j) c); [lia|cbn [length] in *; lia|exact Hnth].
Qed.

Lemma positive_tail_no_zero v :
  Forall positive_coefficient (tl v) -> no_zero_after_first v = true.
Proof.
  destruct v as [|c0 v']; [reflexivity|]. cbn [tl no_zero_after_first].
  intros H. apply forallb_forall. intros c Hc.
  rewrite Forall_forall in H. destruct (H c Hc) as [_ Hv].
  apply negb_true_iff. destruct (Z.eqb_spec (value c) 0); [lia|reflexivity].
Qed.

(** On a sequence that is positive after its first coefficient and whose
    magnitudes sum within [long long], the merge loop ends in the canonical
    state. *)
Lemma merge_loop_canonical_on_positive v :
  Forall positive_coefficient (tl v) -> abs_sum v <= Int64.max_signed ->
  canonical (merge_loop (length v) 0 v) = true.
Proof.
  intros Htail Hsum.
  destruct (merge_loop_invariant (length v) 0 v) as (i' & [Ht Hs Hd] & Hlen).
  - constructor; [assumption..|]. intros j c Hj. lia.
  - lia.
  - unfold canonical. apply andb_true_iff. split.
    + now apply positive_tail_no_zero.
    + apply no_interior_one_intro. intros j c Hj Hl Hnth.
      apply (Hd j c); [lia|assumption..].
Qed.

(** The list constructor reaches the canonical state on every list whose
    coefficients after the first are non-negative and whose magnitudes sum
    within [long long]. *)
Lemma normalize_canonical_on_nonnegative a0 rest :
  Int64.in_range a0 ->
  Forall (fun a => 0 <= a) rest ->
  Z.abs a0 + fold_right Z.add 0 rest <= Int64.max_signed ->
  canonical (coefficients_ (ContinuedFraction_of_vector (a0 :: rest))) = true.
Proof.
  intros Ha0 Hrest Hsum.
  unfold ContinuedFraction_of_vector, normalize.
  cbn [invalidate_cache update_flags with_coefficients coefficients_].
  unfold normalize_coefficients.
  set (v0 := remove_zeros (map Coefficient_of (a0 :: rest))).
  assert (Hv0 : v0 = Coefficient_of a0 ::
                     filter (fun c => negb (value c =? 0)) (map Coefficient_of rest)).
  { unfold v0, remove_zeros. cbn [map length].
    destruct rest as [|a1 rest']; reflexivity. }
  assert (Hmid : forall a, 0 <= a <= Int64.max_signed ->
                 signed_value (Coefficient_of a) = a /\
                 value (Coefficient_of a) = a /\
                 is_negative (Coefficient_of a) = false).
  { intros a Ha. unfold Coefficient_of, Coefficient_ctor, signed_value.
    cbn [is_negative value]. rewrite orb_false_r.
    destruct (Z.ltb_spec a 0); [lia|].
    rewrite wrap_small
      by (unfold Int64.in_range, Int64.min_signed, Int64.max_signed in *; lia).
    repeat split; lia. }
  assert (Hbound : Forall (fun a => 0 <= a <= Int64.max_signed) rest /\
                   0 <= fold_right Z.add 0 rest).
  { clear Hv0 v0. revert Hsum. generalize (Z.abs a0) (Z.abs_nonneg a0).
    induction Hrest as [|a rest' Ha Hr IH]; intros z Hz Hsum; cbn [fold_right] in *.
    - split; [constructor|lia].
    - destruct (IH (z + a) ltac:(lia) ltac:(lia)) as [IH1 IH2].
      split; [constructor; [lia|assumption]|lia]. }
  destruct Hbound as [Hbound Hnn].
  apply merge_loop_canonical_on_positive; rewrite Hv0; cbn [tl].
  - apply Forall_forall. intros c Hc. apply filter_In in Hc as [Hc Hnz].
    apply in_map_iff in Hc as (a & <- & Ha).
    rewrite Forall_forall in Hbound. specialize (Hbound a Ha).
    destruct (Hmid a Hbound) as (_ & Hval & Hneg).
    split; [assumption|].
    apply negb_true_iff in Hnz. rewrite Hval in *.
    destruct (Z.eqb_spec a 0); [discriminate|lia].
  - cbn [abs_sum fold_right].
    change (Coefficient_of a0) with (Coefficient_ctor a0 false false).
    rewrite signed_value_ctor by assumption.
    assert (Hle : fold_right (fun c s => Z.abs (signed_value c) + s) 0
                    (filter (fun c => negb (value c =? 0)) (map Coefficient_of rest))
                  <= fold_right Z.add 0 rest).
    { clear - Hbound Hmid. induction Hbound as [|a rest' Ha Hr IH]; [cbn; lia|].
      cbn [map filter fold_right].
      destruct (Hmid a Ha) as (Hsv & Hval & _).
      destruct (negb (value (Coefficient_of a) =? 0)); cbn [fold_right];
        rewrite ?Hsv; lia. }
    lia.
Qed.

(** C2, code defect.  The claim: after normalization no coefficient above
    index 0 is zero and no interior coefficient is a plain 1.  A merge stores
    the sum of the two neighbours and never looks at the stored value again:
    the list constructor on [{5, 3, 1, -3}] yields [[5; 0]] and
    [set_coefficients({5, 3, 1, -2, 7})] yields [[5; 1; 7]]. *)
Theorem normalize_leaves_zero_and_one :
  get_coefficients (ContinuedFraction_of_vector [5; 3; 1; -3]) = [5; 0] /\
  no_zero_after_first
    (coefficients_ (ContinuedFraction_of_vector [5; 3; 1; -3])) = false /\
  get_coefficients
    (set_coefficients [5; 3; 1; -2; 7] ContinuedFraction_default) = [5; 1; 7] /\
  no_interior_one
    (coefficients_ (set_coefficients [5; 3; 1; -2; 7] ContinuedFraction_default))
  = false.
Proof. vm_compute. repeat split; reflexivity. Qed.

(* ================================================================== *)
(** ** The expansion of e *)

(** The vector built by the loop of [e_continued_fraction] follows the
    closed form at every index. *)
Lemma e_coeffs_closed_form max_terms i :
  (1 <= i < max_terms)%nat ->
  nth_error (e_coeffs max_terms) i =
  Some (if (i mod 3 =? 2)%nat then 2 * ((Z.of_nat i + 1) / 3) else 1).
Proof.
  intros Hi. unfold e_coeffs.
  destruct i as [|j]; [lia|]. cbn [nth_error].
  rewrite nth_error_map, nth_error_seq.
  destruct (Nat.ltb_spec j (max_terms - 1)) as [_|]; [|lia].
  cbn [option_map]. f_equal. unfold e_term.
  replace (1 + j)%nat with (S j) by lia.
  destruct (S j mod 3 =? 2)%nat; [|reflexivity].
  rewrite Nat2Z.inj_mul, Nat2Z.inj_div, Nat2Z.inj_add. reflexivity.
Qed.

(** C3, code defect.  The claim: the fraction returned by
    [e_continued_fraction(max_terms)] has the coefficients
    [2; 1, 2, 1, 1, 4, ...].  The loop builds exactly that vector, and the
    constructor's normalization then merges around every 1: for
    [max_terms = 3] the result is [[4]], for [max_terms = 10] it is
    [[5; 5; 6; 1]]. *)
Theorem e_continued_fraction_merged :
  e_coeffs 3 = [2; 1; 2] /\
  get_coefficients (e_continued_fraction 3) = [4] /\
  e_coeffs 10 = [2; 1; 2; 1; 1; 4; 1; 1; 6; 1] /\
  get_coefficients (e_continued_fraction 10) = [5; 5; 6; 1].
Proof. vm_compute. repeat split; reflexivity. Qed.

(* ================================================================== *)
(** ** Convergents *)

(** C4, code defect.  The claim: the fraction built from
    [{3, 7, 15, 1, 292}] has convergents 3/1, 22/7, 333/106, 355/113.  The
    constructor merges 15, 1, 292 into 307, so the stored sequence is
    [[3; 7; 307]]: [convergent(2)] is 6757/2150 and [convergent(3)] throws
    [out_of_range]. *)
Theorem convergents_of_pi_list :
  let cf := ContinuedFraction_of_vector [3; 7; 15; 1; 292] in
  get_coefficients cf = [3; 7; 307] /\
  convergent 0 cf = ret (3, 1) /\
  convergent 1 cf = ret (22, 7) /\
  convergent 2 cf = ret (6757, 2150) /\
  convergent 3 cf = throw out_of_range.
Proof. vm_compute. repeat split; reflexivity. Qed.

(** With two stored coefficients or more, no index reads outside the
    vector. *)
Lemma convergent_loop_in_bounds v : (0 < length v)%nat ->
  forall count i pn pd cn cd,
  exists p, convergent_loop v count i pn pd cn cd = ret p.
Proof.
  intros Hv. induction count as [|count IH]; intros i pn pd cn cd.
  - eexists. reflexivity.
  - cbn [convergent_loop]. unfold vec_at.
    destruct (nth_error v (i mod length v)) as [c|] eqn:E.
    + cbn [bind ret]. apply IH.
    + apply nth_error_None in E.
      pose proof (Nat.mod_upper_bound i (length v)). lia.
Qed.

Lemma compute_convergent_in_bounds n cf :
  (2 <= length (coefficients_ cf))%nat \/
  (n = 0%nat /\ (1 <= length (coefficients_ cf))%nat) ->
  exists p, compute_convergent n cf = ret p.
Proof.
  intros H. unfold compute_convergent, vec_at.
  destruct (coefficients_ cf) as [|c0 [|c1 tl]] eqn:E; cbn [length] in H.
  - lia.
  - destruct H as [H|[-> _]]; [lia|]. cbn. eexists. reflexivity.
  - destruct (n =? 0)%nat; cbn [nth_error bind ret].
    + eexists. reflexivity.
    + apply convergent_loop_in_bounds. cbn [length]. lia.
Qed.

(** C10, code defect.  The claim: every index accepted by the range check of
    [convergent] makes [compute_convergent] read inside the stored vector.
    For a periodic fraction the check accepts every [n]; with one stored
    coefficient, [create_periodic({}, {2})], and [n = 1] the initialization
    reads [coefficients_[1]] of a vector of size 1. *)
Theorem convergent_reads_past_single_coefficient :
  let cf := create_periodic [] [2] in
  size cf = 1%nat /\ is_periodic cf = true /\ is_finite cf = false /\
  convergent 1 cf = throw (oob_read 1 1).
Proof. vm_compute. repeat split; reflexivity. Qed.

(* ================================================================== *)
(** ** The square root of two *)

(** C7, as the code has it: [sqrt_continued_fraction(2, 10)] stops at the end
    of the period and stores [[1; (2)]]; [to_double()] folds the two stored
    coefficients only and returns exactly 1.5, whose square is 2.25. *)
Theorem sqrt2_to_double :
  (cf <- sqrt_continued_fraction 2 10 ;;
   ret (get_coefficients cf, is_periodic cf, fst (to_double cf)))
  = ret ([1; 2], true, 1.5%float) /\
  PrimFloat.mul 1.5%float 1.5%float = 2.25%float /\
  PrimFloat.abs (PrimFloat.sub 2.25%float 2%float) = 0.25%float.
Proof. vm_compute. repeat split; reflexivity. Qed.

(** C7, the claim refuted: the square of the value returned is not within
    1e-6 of 2. *)
Lemma sqrt2_square_not_within_1e6 :
  (cf <- sqrt_continued_fraction 2 10 ;;
   let x := fst (to_double cf) in
   ret (PrimFloat.ltb (PrimFloat.abs (PrimFloat.sub (PrimFloat.mul x x) 2%float))
                      tolerance_1e6))
  <> ret true.
Proof. vm_compute. discriminate. Qed.

(* ================================================================== *)
(** ** Rationals: the Euclidean quotient sequence *)

Lemma quot_in_range n d :
  d <> 0 -> Int64.in_range n -> ~ (n = Int64.min_signed /\ d = -1) ->
  Int64.in_range (Z.quot n d).
Proof.
  unfold Int64.in_range, Int64.min_signed, Int64.max_signed.
  intros Hd Hn Hov.
  destruct (Z.eq_dec d 1) as [->|Hd1]; [rewrite Z.quot_1_r; lia|].
  destruct (Z.eq_dec d (-1)) as [->|Hd2].
  { change (-1) with (- (1)). rewrite Z.quot_opp_r, Z.quot_1_r by lia. lia. }
  destruct (Z.eq_dec n 0) as [->|Hn0]; [rewrite Z.quot_0_l; lia|].
  assert (Z.abs (Z.quot n d) < Z.abs n).
  { rewrite <- Z.quot_abs by assumption. apply Z.quot_lt; lia. }
  lia.
Qed.

Lemma div_exact n d :
  d <> 0 -> Int64.in_range n -> ~ (n = Int64.min_signed /\ d = -1) ->
  Int64.div n d = Z.quot n d.
Proof. intros. unfold Int64.div. apply wrap_small. now apply quot_in_range. Qed.

Lemma euclid_loop_nil fuel n : euclid_loop fuel n 0 [] = [].
Proof. destruct fuel; reflexivity. Qed.

Lemma euclid_loop_spec fuel : forall n d,
  d <> 0 -> euclid_no_overflow n d -> Z.abs d < Z.of_nat fuel ->
  euclid_spec n d (euclid_loop fuel n d []).
Proof.
  induction fuel as [|fuel IH]; intros n d Hd (Hn & Hdr & Hov) Hfuel; [lia|].
  rewrite euclid_loop_S. destruct (Z.eqb_spec d 0) as [|_]; [contradiction|].
  rewrite euclid_loop_acc. cbn [app].
  rewrite div_exact by assumption. unfold Int64.rem.
  pose proof (Z.rem_bound_abs n d Hd) as Hr.
  destruct (Z.eq_dec (Z.rem n d) 0) as [E|E].
  - rewrite E, euclid_loop_nil. now apply euclid_last.
  - apply euclid_step; [assumption..|].
    apply IH; [assumption| |lia].
    unfold euclid_no_overflow, Int64.in_range, Int64.min_signed, Int64.max_signed in *.
    lia.
Qed.

Lemma euclid_spec_nonempty n d qs : euclid_spec n d qs -> qs <> [].
Proof. destruct 1; discriminate. Qed.

Lemma inject_Z_nonzero d : d <> 0 -> ~ (inject_Z d == 0)%Q.
Proof. intros H C. apply H. unfold Qeq in C. cbn in C. lia. Qed.

Lemma euclid_spec_value n d qs :
  euclid_spec n d qs -> (cf_value qs == inject_Z n / inject_Z d)%Q.
Proof.
  induction 1 as [n d Hd Hr | n d qs Hd Hr Hspec IH].
  - cbn [cf_value].
    pose proof (Z.quot_rem' n d) as E. rewrite Hr, Z.add_0_r in E.
    set (q := Z.quot n d) in *. clearbody q. subst n.
    rewrite inject_Z_mult. field. now apply inject_Z_nonzero.
  - pose proof (euclid_spec_nonempty _ _ _ Hspec) as Hne.
    cbn [cf_value]. destruct qs as [|q' qs']; [contradiction|].
    rewrite IH.
    pose proof (Z.quot_rem' n d) as E.
    set (q := Z.quot n d) in *. set (r := Z.rem n d) in *. clearbody q r.
    subst n. rewrite inject_Z_plus, inject_Z_mult.
    field. split; now apply inject_Z_nonzero.
Qed.

Lemma euclid_spec_tail n d qs :
  euclid_spec n d qs -> 0 < d < n ->
  Forall (fun q => 1 <= q) qs /\ 2 <= last qs 0.
Proof.
  induction 1 as [n d Hd Hr | n d qs Hd Hr Hspec IH]; intros Hnd.
  - pose proof (Z.quot_rem' n d) as E. rewrite Hr, Z.add_0_r in E.
    assert (2 <= Z.quot n d) by nia.
    cbn [last]. split; [constructor; [lia|constructor]|assumption].
  - pose proof (Z.quot_rem' n d) as E.
    pose proof (Z.rem_bound_pos n d ltac:(lia) ltac:(lia)) as Hb.
    destruct IH as [IH1 IH2]; [lia|].
    assert (1 <= Z.quot n d) by nia.
    split; [now constructor|].
    pose proof (euclid_spec_nonempty _ _ _ Hspec).
    destruct qs; [contradiction|exact IH2].
Qed.

Lemma euclid_spec_canonical n d qs :
  euclid_spec n d qs -> 0 <= n -> 0 < d -> simple_canonical qs.
Proof.
  destruct 1 as [n d Hd Hr | n d qs Hd Hr Hspec]; intros Hn Hd0; cbn.
  - split; [constructor|congruence].
  - pose proof (Z.rem_bound_pos n d ltac:(lia) ltac:(lia)) as Hb.
    destruct (euclid_spec_tail _ _ _ Hspec ltac:(lia)) as [H1 H2].
    split; [assumption|intros _; assumption].
Qed.

(** C5, the claim refuted: the coefficient sequence of
    [from_rational(355, 113)] is not [[3; 7; 15; 1]]. *)
Lemma from_rational_355_113_not_15_1 :
  (cf <- from_rational 355 113 ;; ret (get_coefficients cf))
  <> ret [3; 7; 15; 1].
Proof. vm_compute. discriminate. Qed.

(** C5, as the code has it.  [from_rational(355, 113)] returns the
    coefficients [[3; 7; 16]].  For every denominator other than zero (and
    arguments whose quotients fit [long long]) the vector handed to the list
    constructor is the quotient sequence of the Euclidean algorithm on
    (numerator, denominator); its continued-fraction value is exactly
    numerator/denominator, and for a non-negative numerator and a positive
    denominator it is the canonical simple continued fraction. *)
Theorem from_rational_euclid n d :
  d <> 0 -> euclid_no_overflow n d ->
  (cf <- from_rational 355 113 ;; ret (get_coefficients cf)) = ret [3; 7; 16] /\
  from_rational n d = ret (ContinuedFraction_of_vector (euclid_quotients n d)) /\
  euclid_spec n d (euclid_quotients n d) /\
  (cf_value (euclid_quotients n d) == inject_Z n / inject_Z d)%Q /\
  (0 <= n -> 0 < d -> simple_canonical (euclid_quotients n d)).
Proof.
  intros Hd Hov.
  assert (Hspec : euclid_spec n d (euclid_quotients n d)).
  { unfold euclid_quotients. apply euclid_loop_spec; [assumption..|lia]. }
  split; [vm_compute; reflexivity|].
  split.
  { unfold from_rational. destruct (Z.eqb_spec d 0); [contradiction|reflexivity]. }
  split; [exact Hspec|].
  split; [now apply euclid_spec_value|].
  intros Hn Hd0. now apply (euclid_spec_canonical n d).
Qed.

Lemma from_rational_euclid_witness :
  (cf <- from_rational 355 113 ;; ret (get_coefficients cf)) = ret [3; 7; 16] /\
  from_rational 355 113
  = ret (ContinuedFraction_of_vector (euclid_quotients 355 113)) /\
  euclid_spec 355 113 (euclid_quotients 355 113) /\
  (cf_value (euclid_quotients 355 113) == inject_Z 355 / inject_Z 113)%Q /\
  (0 <= 355 -> 0 < 113 -> simple_canonical (euclid_quotients 355 113)).
Proof.
  apply (from_rational_euclid 355 113).
  - discriminate.
  - unfold euclid_no_overflow, Int64.in_range, Int64.min_signed, Int64.max_signed.
    lia.
Defined.

(* ================================================================== *)
(** ** Reading text *)

(** C6, code defect.  The claim: the fraction read from ["[1; 2, 3]"] equals
    the one built from [{1, 2, 3}], and differs from the one read from
    ["[1; 2, 4]"].  The reader continues only over [';']: it stops at the
    first comma, so both strings yield [[1; 2]]; [operator==] against
    [{1, 2, 3}] is false and [operator!=] between the two strings is
    false. *)
Theorem comma_separated_text_is_truncated :
  (a <- ContinuedFraction_of_string "[1; 2, 3]" ;; ret (get_coefficients a))
  = ret [1; 2] /\
  (b <- ContinuedFraction_of_string "[1; 2, 4]" ;; ret (get_coefficients b))
  = ret [1; 2] /\
  (a <- ContinuedFraction_of_string "[1; 2, 3]" ;;
   ret (operator_eq a (ContinuedFraction_of_vector [1; 2; 3]))) = ret false /\
  (a <- ContinuedFraction_of_string "[1; 2, 3]" ;;
   b <- ContinuedFraction_of_string "[1; 2, 4]" ;;
   ret (operator_ne a b)) = ret false.
Proof. vm_compute. repeat split; reflexivity. Qed.

(** The two ways [parse_string] throws: the text is not of the form
    [\[...\]], or its first integer cannot be read. *)
Lemma parse_string_rejects_unbracketed str cf :
  regex_match str = None ->
  parse_string str cf = (with_coefficients [] cf, Some invalid_argument).
Proof. intros H. unfold parse_string. now rewrite H. Qed.

Lemma parse_string_rejects_unreadable str content cf :
  regex_match str = Some content ->
  failbit (fst (extract_ll (stream_ok content) 0)) = true ->
  parse_string str cf = (with_coefficients [] cf, Some invalid_argument).
Proof.
  intros H E. unfold parse_string. rewrite H.
  destruct (extract_ll (stream_ok content) 0) as [iss coeff].
  cbn [fst] in E. now rewrite E.
Qed.

(** A successful [parse_string] overwrites every member: its result does
    not depend on the instance it is called on. *)
Lemma parse_string_overwrites str cf1 cf2 :
  snd (parse_string str cf1) = None ->
  parse_string str cf1 = parse_string str cf2.
Proof.
  unfold parse_string.
  destruct (regex_match str) as [content|]; [|discriminate].
  destruct (extract_ll (stream_ok content) 0) as [iss coeff].
  destruct (failbit iss); [discriminate|reflexivity].
Qed.

(** C8.  [parse_string] clears the vector before it validates: whenever it
    throws the invalid-format error on an instance that held coefficients,
    the instance is left with an empty coefficient vector, its flags and its
    cache as they were, and so differs from its state before the call. *)
Theorem parse_string_failure_clears str cf cf' :
  coefficients_ cf <> [] ->
  parse_string str cf = (cf', Some invalid_argument) ->
  coefficients_ cf' = [] /\
  is_finite_ cf' = is_finite_ cf /\
  is_periodic_ cf' = is_periodic_ cf /\
  cached_value_ cf' = cached_value_ cf /\
  value_cached_ cf' = value_cached_ cf /\
  cf' <> cf.
Proof.
  intros Hne H. unfold parse_string in H.
  assert (E : cf' = with_coefficients [] cf).
  { destruct (regex_match str) as [content|]; [|congruence].
    destruct (extract_ll (stream_ok content) 0) as [iss coeff].
    destruct (failbit iss); congruence. }
  subst cf'. cbn. repeat split.
  intros C. apply Hne. rewrite <- C. reflexivity.
Qed.

Lemma parse_string_failure_clears_witness :
  let cf := ContinuedFraction_of_vector [3; 7; 16] in
  let cf' := with_coefficients [] cf in
  coefficients_ cf' = [] /\
  is_finite_ cf' = is_finite_ cf /\
  is_periodic_ cf' = is_periodic_ cf /\
  cached_value_ cf' = cached_value_ cf /\
  value_cached_ cf' = value_cached_ cf /\
  cf' <> cf.
Proof.
  apply (parse_string_failure_clears "1; 2"%string
           (ContinuedFraction_of_vector [3; 7; 16])).
  - vm_compute. discriminate.
  - vm_compute. reflexivity.
Defined.

(* ================================================================== *)
(** ** Writing and reading back *)

(** Characters *)

Lemma digit_not_space c : is_digit c = true -> isspace c = false.
Proof.
  destruct c as [[] [] [] [] [] [] [] []]; try discriminate; reflexivity.
Qed.

Lemma digit_not_sign c :
  is_digit c = true -> Ascii.eqb c "-" = false /\ Ascii.eqb c "+" = false.
Proof.
  destruct c as [[] [] [] [] [] [] [] []]; try discriminate; split; reflexivity.
Qed.

Lemma digit_not_bracket c :
  is_digit c = true -> Ascii.eqb c "[" = false /\ Ascii.eqb c "]" = false.
Proof.
  destruct c as [[] [] [] [] [] [] [] []]; try discriminate; split; reflexivity.
Qed.

(** Digits of a printed number *)

Lemma string_of_uint_digits u : all_digits (NilEmpty.string_of_uint u) = true.
Proof. induction u; cbn; auto. Qed.

Lemma read_digits_step c d s acc seen :
  digit_of c = Some d ->
  read_digits (String c s) acc seen = read_digits s (acc * 10 + d) true.
Proof. intros H. cbn [read_digits]. now rewrite H. Qed.

Lemma read_digits_stop s acc seen :
  starts_nondigit s -> read_digits s acc seen = (acc, seen, s).
Proof.
  destruct s as [|c s]; cbn [read_digits starts_nondigit]; [reflexivity|].
  now intros ->.
Qed.

Lemma read_digits_uint u : forall d' rest seen,
  starts_nondigit rest ->
  read_digits (NilEmpty.string_of_uint u ++ rest) (Z.of_N (Unsigned.of_lu d')) seen
  = (Z.of_N (Unsigned.of_lu (revapp u d')),
     seen || match u with Nil => false | _ => true end,
     rest).
Proof.
  induction u; intros d' rest seen Hrest;
    cbn [NilEmpty.string_of_uint String.append revapp].
  1: { rewrite orb_false_r. now apply read_digits_stop. }
  all: match goal with
       | |- read_digits (String ?c _) _ _ = (Z.of_N (Unsigned.of_lu (revapp _ ?d2)), _, _) =>
           let k := eval vm_compute in (Z.of_nat (nat_of_ascii c) - 48) in
           rewrite (read_digits_step c k) by reflexivity;
           replace (Z.of_N (Unsigned.of_lu d') * 10 + k)
             with (Z.of_N (Unsigned.of_lu d2)) by (cbn [Unsigned.of_lu]; lia)
       end;
       rewrite IHu by assumption; now rewrite orb_true_r.
Qed.

(** Reading back a printed magnitude. *)
Lemma read_digits_magnitude u rest :
  u <> Nil -> starts_nondigit rest ->
  read_digits (NilEmpty.string_of_uint u ++ rest) 0 false
  = (Z.of_N (Pos.of_uint u), true, rest).
Proof.
  intros Hu Hrest.
  change 0 with (Z.of_N (Unsigned.of_lu Nil)).
  rewrite read_digits_uint by assumption.
  change (revapp u Nil) with (Decimal.rev u).
  rewrite <- Unsigned.of_uint_alt.
  destruct u; [contradiction|reflexivity..].
Qed.

Lemma skip_ws_digit c s : is_digit c = true -> skip_ws (String c s) = String c s.
Proof. intros H. cbn [skip_ws]. now rewrite digit_not_space. Qed.

Lemma string_of_uint_head u :
  u <> Nil ->
  exists c s, NilEmpty.string_of_uint u = String c s /\ is_digit c = true.
Proof. destruct u; [congruence|..]; intros _; cbn; eauto. Qed.

(** A field of digits without a sign. *)
Lemma extract_ll_unsigned u rest old :
  u <> Nil -> starts_nondigit rest ->
  Z.of_N (Pos.of_uint u) <= Int64.max_signed ->
  extract_ll (stream_ok (NilEmpty.string_of_uint u ++ rest)) old
  = (stream_ok rest, Z.of_N (Pos.of_uint u)).
Proof.
  intros Hu Hrest Hmax.
  unfold extract_ll. cbn [failbit buf stream_ok].
  destruct (string_of_uint_head u Hu) as (c & s & E & Hc).
  pose proof (read_digits_magnitude u rest Hu Hrest) as Hread.
  rewrite E in *. cbn [String.append] in *.
  rewrite skip_ws_digit by assumption.
  destruct (digit_not_sign c Hc) as [-> ->].
  rewrite Hread. cbn [negb].
  destruct (Z.ltb_spec (Z.of_N (Pos.of_uint u)) Int64.min_signed);
    [unfold Int64.min_signed in *; lia|].
  destruct (Z.ltb_spec Int64.max_signed (Z.of_N (Pos.of_uint u)));
    [lia|reflexivity].
Qed.

(** [iss >> coeff] reads back what [oss << coeff] wrote, and stops in front
    of whatever non-digit follows. *)
Lemma extract_ll_print z rest old :
  Int64.in_range z -> starts_nondigit rest ->
  extract_ll (stream_ok (print_ll z ++ rest)) old = (stream_ok rest, z).
Proof.
  unfold Int64.in_range. intros Hz Hrest.
  unfold print_ll.
  destruct z as [|p|p]; cbn [Z.to_int NilEmpty.string_of_int].
  - now rewrite (extract_ll_unsigned (D0 Nil)).
  
  - rewrite extract_ll_unsigned; try assumption.
    + now rewrite Unsigned.of_to.
    + apply Unsigned.to_uint_nonnil.
    + rewrite Unsigned.of_to. cbn [Z.of_N]. lia.
  - unfold extract_ll. cbn [failbit buf stream_ok String.append skip_ws].
    change (isspace "-") with false. cbv iota.
    change (Ascii.eqb "-" "-") with true. cbv iota.
    rewrite read_digits_magnitude, Unsigned.of_to;
      [|apply Unsigned.to_uint_nonnil|assumption].
    cbn [negb Z.of_N]. change (- Z.pos p) with (Z.neg p).
    destruct (Z.ltb_spec (Z.neg p) Int64.min_signed); [lia|].
    destruct (Z.ltb_spec Int64.max_signed (Z.neg p));
      [unfold Int64.max_signed in *; lia|reflexivity].
Qed.

Local Open Scope string_scope.

(** Strings *)

Lemma string_app_assoc (a b c : string) : (a ++ b) ++ c = a ++ (b ++ c).
Proof. induction a as [|x a IH]; cbn; [reflexivity|now rewrite IH]. Qed.

Lemma string_length_app (a b : string) :
  String.length (a ++ b) = (String.length a + String.length b)%nat.
Proof. induction a as [|x a IH]; cbn; [reflexivity|now rewrite IH]. Qed.

Lemma split_last_app s c : split_last (s ++ String c "") = Some (s, c).
Proof.
  induction s as [|a s IH]; [reflexivity|].
  cbn [String.append split_last]. rewrite IH.
  destruct (s ++ String c "") eqn:E; [|reflexivity].
  destruct s; discriminate.
Qed.

Lemma no_brackets_app a b :
  no_brackets (a ++ b) = no_brackets a && no_brackets b.
Proof.
  induction a as [|x a IH]; cbn [String.append no_brackets]; [reflexivity|].
  rewrite IH. now rewrite !andb_assoc.
Qed.

Lemma all_digits_no_brackets s : all_digits s = true -> no_brackets s = true.
Proof.
  induction s as [|c s IH]; [reflexivity|].
  cbn [all_digits no_brackets]. intros H. apply andb_true_iff in H as [Hc Hs].
  destruct (digit_not_bracket c Hc) as [-> ->]. cbn. now apply IH.
Qed.

Lemma print_ll_no_brackets z : no_brackets (print_ll z) = true.
Proof.
  unfold print_ll.
  destruct (Z.to_int z) as [u|u]; cbn [NilEmpty.string_of_int no_brackets].
  - apply all_digits_no_brackets, string_of_uint_digits.
  - change (Ascii.eqb "-" "[") with false. change (Ascii.eqb "-" "]") with false.
    cbn [negb andb]. apply all_digits_no_brackets, string_of_uint_digits.
Qed.

Lemma print_ll_nonempty z : String.length (print_ll z) <> 0%nat.
Proof.
  unfold print_ll. destruct z as [|p|p]; cbn [Z.to_int NilEmpty.string_of_int].
  - discriminate.
  - destruct (string_of_uint_head _ (Unsigned.to_uint_nonnil p)) as (c & s & -> & _).
    discriminate.
  - discriminate.
Qed.

Lemma print_tail_no_brackets v : no_brackets (print_tail v) = true.
Proof.
  induction v as [|c v IH]; [reflexivity|].
  cbn [print_tail]. rewrite !no_brackets_app, print_ll_no_brackets, IH.
  unfold separator. destruct (is_periodic_marker c); reflexivity.
Qed.

Lemma print_tail_starts_nondigit v : starts_nondigit (print_tail v).
Proof.
  destruct v as [|c v]; [exact I|].
  cbn [print_tail]. unfold separator.
  destruct (is_periodic_marker c); reflexivity.
Qed.

Lemma print_tail_length v : (length v <= String.length (print_tail v))%nat.
Proof.
  induction v as [|c v IH]; [reflexivity|].
  cbn [print_tail length]. rewrite !string_length_app.
  unfold separator. destruct (is_periodic_marker c); cbn [String.length]; lia.
Qed.

(** The match of [to_string]'s output against the bracket pattern. *)
Lemma regex_match_brackets content :
  String.length content <> 0%nat -> no_brackets content = true ->
  regex_match ("[" ++ content ++ "]") = Some content.
Proof.
  intros Hlen Hnb. cbn [String.append regex_match].
  change (Ascii.eqb "[" "[") with true. cbv iota.
  rewrite split_last_app, Hnb.
  change (Ascii.eqb "]" "]") with true.
  destruct (Nat.eqb_spec (String.length content) 0); [contradiction|reflexivity].
Qed.

Lemma extract_ll_space s old :
  extract_ll (stream_ok (String " " s)) old = extract_ll (stream_ok s) old.
Proof.
  unfold extract_ll. cbn [failbit buf stream_ok skip_ws].
  change (isspace " ") with true. reflexivity.
Qed.

Lemma Coefficient_of_signed_value c :
  Coefficient_wf c -> is_periodic_marker c = false ->
  Coefficient_of (signed_value c) = c.
Proof. intros [_ E] Hm. rewrite Hm in E. symmetry. exact E. Qed.

(** The tokenizer loop reads back the tail that [to_string] wrote. *)
Lemma read_rest_print_tail tl : forall fuel coeff acc,
  Forall Coefficient_wf tl -> has_marker tl = false ->
  (length tl < fuel)%nat ->
  read_rest fuel (stream_ok (print_tail tl)) coeff acc = (acc ++ tl)%list.
Proof.
  induction tl as [|c tl IH]; intros fuel coeff acc Hwf Hm Hfuel.
  - destruct fuel; [cbn in Hfuel; lia|]. cbn. now rewrite app_nil_r.
  - destruct fuel as [|fuel]; [cbn in Hfuel; lia|].
    inversion Hwf as [|? ? Hc Htl]; subst.
    cbn [has_marker existsb] in Hm. apply orb_false_iff in Hm as [Hmc Hmtl].
    cbn [print_tail read_rest]. unfold separator. rewrite Hmc.
    cbn [String.append].
    unfold extract_char. cbn [failbit buf stream_ok skip_ws].
    change (isspace ";") with false. cbv iota.
    change (Ascii.eqb ";" ";") with true. cbv iota.
    rewrite extract_ll_space, extract_ll_print;
      [|apply Hc|apply print_tail_starts_nondigit].
    rewrite Coefficient_of_signed_value by assumption.
    rewrite IH; [|assumption|exact Hmtl|cbn [length] in Hfuel; lia].
    now rewrite <- app_assoc.
Qed.

Lemma Coefficient_eqb_refl c : Coefficient_eqb c c = true.
Proof. unfold Coefficient_eqb. now rewrite Z.eqb_refl, eqb_reflx. Qed.

Lemma coefficients_eqb_refl v : coefficients_eqb v v = true.
Proof.
  induction v as [|c v IH]; [reflexivity|].
  cbn [coefficients_eqb]. now rewrite Coefficient_eqb_refl, IH.
Qed.

(** C9, as the code has it.  For every non-periodic fraction with at least
    one coefficient, in canonical form (and built by the constructors), the
    text written by [to_string] is accepted by the string constructor, which
    yields the same coefficients: a fraction equal under [operator==]. *)
Theorem to_string_parse_roundtrip cf :
  ContinuedFraction_wf cf ->
  coefficients_ cf <> [] ->
  is_periodic cf = false ->
  canonical (coefficients_ cf) = true ->
  exists cf',
    ContinuedFraction_of_string (to_string cf) = ret cf' /\
    coefficients_ cf' = coefficients_ cf /\
    operator_eq cf' cf = true.
Proof.
  intros (Hwf & Hper & Hfin) Hne Hnp Hcan.
  unfold is_periodic in Hnp. rewrite Hnp in Hper. symmetry in Hper.
  destruct (coefficients_ cf) as [|c0 tl] eqn:Ecf; [contradiction|].
  inversion Hwf as [|? ? Hc0 Htl]; subst.
  cbn [has_marker existsb] in Hper. apply orb_false_iff in Hper as [Hm0 Hmtl].
  set (content := print_ll (signed_value c0) ++ print_tail tl).
  assert (Hstr : to_string cf = "[" ++ content ++ "]").
  { unfold to_string. rewrite Ecf, Hnp. unfold content.
    now rewrite string_app_assoc. }
  assert (Hmatch : regex_match (to_string cf) = Some content).
  { rewrite Hstr. apply regex_match_brackets.
    - unfold content. rewrite string_length_app.
      pose proof (print_ll_nonempty (signed_value c0)). lia.
    - unfold content.
      now rewrite no_brackets_app, print_ll_no_brackets, print_tail_no_brackets. }
  eexists. split; [|split].
  - unfold ContinuedFraction_of_string, parse_string. rewrite Hmatch.
    unfold content at 1.
    rewrite extract_ll_print;
      [|apply Hc0|apply print_tail_starts_nondigit].
    cbn [failbit stream_ok].
    rewrite read_rest_print_tail; [reflexivity|assumption|exact Hmtl|].
    unfold content. rewrite string_length_app.
    pose proof (print_tail_length tl). lia.
  - cbn [normalize invalidate_cache update_flags with_coefficients coefficients_].
    rewrite Coefficient_of_signed_value by assumption.
    cbn [app]. now apply normalize_coefficients_canonical.
  - unfold operator_eq.
    cbn [normalize invalidate_cache update_flags with_coefficients coefficients_].
    rewrite Coefficient_of_signed_value by assumption.
    cbn [app]. rewrite normalize_coefficients_canonical by assumption.
    rewrite Ecf, Nat.eqb_refl. cbn [negb]. apply coefficients_eqb_refl.
Qed.

Lemma to_string_parse_roundtrip_witness :
  exists cf',
    ContinuedFraction_of_string
      (to_string (ContinuedFraction_of_vector [3; 7; -16])) = ret cf' /\
    coefficients_ cf' = coefficients_ (ContinuedFraction_of_vector [3; 7; -16]) /\
    operator_eq cf' (ContinuedFraction_of_vector [3; 7; -16]) = true.
Proof.
  apply (to_string_parse_roundtrip (ContinuedFraction_of_vector [3; 7; -16])).
  - apply ContinuedFraction_of_vector_wf.
    repeat constructor; vm_compute; discriminate.
  - vm_compute. discriminate.
  - vm_compute. reflexivity.
  - vm_compute. reflexivity.
Defined.

(** C9, the claim refuted.  The fraction built from the empty list is
    non-periodic and canonical; [to_string] writes ["[0]"] for it, which reads
    back as the one-coefficient fraction [[0]], unequal to it under
    [operator==]. *)
Lemma roundtrip_fails_on_empty :
  let cf := ContinuedFraction_of_vector [] in
  ContinuedFraction_wf cf /\
  is_periodic cf = false /\
  canonical (coefficients_ cf) = true /\
  to_string cf = "[0]" /\
  (cf' <- ContinuedFraction_of_string (to_string cf) ;;
   ret (get_coefficients cf', operator_eq cf' cf)) = ret ([0%Z], false).
Proof.
  split; [apply ContinuedFraction_of_vector_wf; constructor|].
  vm_compute. repeat split; reflexivity.
Qed.

Local Close Scope string_scope.

(* ================================================================== *)
(** ** What normalization keeps *)

Lemma remove_zeros_length v : (length (remove_zeros v) <= length v)%nat.
Proof.
  unfold remove_zeros. destruct (1 <? length v)%nat; [|lia].
  destruct v as [|c0 v']; [lia|]. cbn [length].
  pose proof (filter_length_le (fun c => negb (value c =? 0)) v'). lia.
Qed.

Lemma remove_zeros_nil v : remove_zeros v = [] <-> v = [].
Proof.
  unfold remove_zeros. destruct (1 <? length v)%nat.
  - destruct v; [tauto|]. split; discriminate.
  - tauto.
Qed.

Lemma merge_loop_length fuel : forall i v,
  (length (merge_loop fuel i v) <= length v)%nat /\
  (length v = 0%nat <-> length (merge_loop fuel i v) = 0%nat).
Proof.
  induction fuel as [|fuel IH]; intros i v; [cbn; lia|].
  rewrite merge_loop_S.
  destruct (Nat.ltb_spec (i + 2) (length v)) as [E|E]; [|lia].
  destruct (split_at3 v i E) as (pre & ci & c1 & c2 & post & -> & <-).
  destruct (nth_error_split3 pre ci c1 c2 post) as (-> & -> & ->).
  destruct (is_plain_one c1).
  - rewrite merge_shape.
    match goal with |- context [merge_loop fuel ?j ?w] =>
      destruct (IH j w) as [IH1 IH2] end.
    rewrite !length_app in *. cbn [length] in *. lia.
  - apply IH.
Qed.

Lemma count_markers_app a b :
  count_markers (a ++ b) = (count_markers a + count_markers b)%nat.
Proof. unfold count_markers. now rewrite filter_app, length_app. Qed.

Lemma count_markers_cons c v :
  count_markers (c :: v)
  = ((if is_periodic_marker c then 1 else 0) + count_markers v)%nat.
Proof. unfold count_markers. cbn [filter]. destruct (is_periodic_marker c); reflexivity. Qed.

Lemma filter_markers (f : Coefficient -> bool) v :
  (count_markers (filter f v) <= count_markers v)%nat.
Proof.
  induction v as [|c v IH]; [reflexivity|].
  cbn [filter]. destruct (f c); rewrite ?count_markers_cons;
    destruct (is_periodic_marker c); lia.
Qed.

Lemma remove_zeros_markers v :
  (count_markers (remove_zeros v) <= count_markers v)%nat.
Proof.
  unfold remove_zeros. destruct (1 <? length v)%nat; [|lia].
  destruct v as [|c0 v']; [lia|]. rewrite !count_markers_cons.
  pose proof (filter_markers (fun c => negb (value c =? 0)) v').
  destruct (is_periodic_marker c0); lia.
Qed.

Lemma merge_loop_markers fuel : forall i v,
  (count_markers (merge_loop fuel i v) <= count_markers v)%nat.
Proof.
  induction fuel as [|fuel IH]; intros i v; [cbn [merge_loop]; lia|].
  rewrite merge_loop_S.
  destruct (Nat.ltb_spec (i + 2) (length v)) as [E|E]; [|lia].
  destruct (split_at3 v i E) as (pre & ci & c1 & c2 & post & -> & <-).
  destruct (nth_error_split3 pre ci c1 c2 post) as (-> & -> & ->).
  destruct (is_plain_one c1).
  - rewrite merge_shape.
    match goal with |- context [merge_loop fuel ?j ?w] =>
      pose proof (IH j w) as IH1 end.
    rewrite !count_markers_app, !count_markers_cons in *.
    cbn [is_periodic_marker Coefficient_of Coefficient_ctor] in *.
    destruct (is_periodic_marker ci), (is_periodic_marker c1),
      (is_periodic_marker c2); lia.
  - apply IH.
Qed.

Lemma normalize_coefficients_length v :
  (length (normalize_coefficients v) <= length v)%nat /\
  (length (normalize_coefficients v) = 0%nat <-> length v = 0%nat).
Proof.
  unfold normalize_coefficients.
  pose proof (remove_zeros_length v) as H1.
  pose proof (remove_zeros_nil v) as H2.
  destruct (merge_loop_length (length (remove_zeros v)) 0 (remove_zeros v))
    as [H3 H4].
  split; [lia|].
  rewrite <- H4, !length_zero_iff_nil. exact H2.
Qed.

Lemma normalize_coefficients_markers v :
  (count_markers (normalize_coefficients v) <= count_markers v)%nat.
Proof.
  unfold normalize_coefficients.
  pose proof (remove_zeros_markers v).
  pose proof (merge_loop_markers (length (remove_zeros v)) 0 (remove_zeros v)).
  lia.
Qed.

(** X1.  Normalization never lengthens a coefficient sequence, and it empties
    only the empty one. *)
Theorem normalize_size_bounds cf :
  (size (normalize cf) <= size cf)%nat /\
  (size (normalize cf) = 0%nat <-> size cf = 0%nat).
Proof. apply normalize_coefficients_length. Qed.

(** X2.  Normalization never creates a periodic marker: the number of marked
    coefficients does not grow. *)
Theorem normalize_never_adds_marker cf :
  (count_markers (coefficients_ (normalize cf))
   <= count_markers (coefficients_ cf))%nat.
Proof. apply normalize_coefficients_markers. Qed.

Lemma count_markers_zero v : count_markers v = 0%nat <-> has_marker v = false.
Proof.
  unfold has_marker. induction v as [|c v IH]; [cbn; tauto|].
  rewrite count_markers_cons. cbn [existsb].
  destruct (is_periodic_marker c); cbn [orb]; [split; [lia|discriminate]|].
  rewrite <- IH. lia.
Qed.

Lemma count_markers_unmarked l : count_markers (map Coefficient_of l) = 0%nat.
Proof.
  induction l as [|a l IH]; [reflexivity|].
  cbn [map]. rewrite count_markers_cons, IH. reflexivity.
Qed.

Lemma normalize_unmarked_finite cf :
  count_markers (coefficients_ cf) = 0%nat ->
  is_periodic (normalize cf) = false /\ is_finite (normalize cf) = true.
Proof.
  intros H. pose proof (normalize_coefficients_markers (coefficients_ cf)) as Hn.
  assert (E : has_marker (coefficients_ (normalize cf)) = false).
  { apply count_markers_zero.
    change (coefficients_ (normalize cf))
      with (normalize_coefficients (coefficients_ cf)). lia. }
  unfold is_periodic, is_finite, normalize in *.
  cbn [invalidate_cache update_flags with_coefficients coefficients_
       is_periodic_ is_finite_] in *.
  unfold has_marker in E. rewrite E. split; reflexivity.
Qed.

(** X3.  The stored sequence holds at most one marked coefficient, whatever
    [create_periodic] is given, and none after the list constructor,
    [set_coefficients] or [clear]; a fraction without a marked coefficient
    keeps none when a coefficient is added. *)
Theorem at_most_one_periodic_marker :
  (forall non_periodic periodic,
     (count_markers (coefficients_ (create_periodic non_periodic periodic)) <= 1)%nat) /\
  (forall coeffs,
     count_markers (coefficients_ (ContinuedFraction_of_vector coeffs)) = 0%nat) /\
  (forall coeffs cf,
     count_markers (coefficients_ (set_coefficients coeffs cf)) = 0%nat) /\
  (forall cf, count_markers (coefficients_ (clear cf)) = 0%nat) /\
  (forall x cf,
     (count_markers (coefficients_ (add_coefficient x cf))
      <= count_markers (coefficients_ cf))%nat).
Proof.
  split; [|split; [|split; [|split]]].
  - intros np p. unfold create_periodic.
    match goal with |- context [normalize ?c] =>
      pose proof (normalize_coefficients_markers (coefficients_ c)) as H;
      change (normalize_coefficients (coefficients_ c))
        with (coefficients_ (normalize c)) in H
    end.
    cbn [with_coefficients coefficients_] in H.
    rewrite count_markers_app, count_markers_unmarked in H.
    destruct p as [|p0 ps];
      [change (count_markers []) with 0%nat in H; lia|].
    rewrite count_markers_cons, count_markers_unmarked in H.
    cbn [is_periodic_marker Coefficient_ctor] in H. lia.
  - intros coeffs. unfold ContinuedFraction_of_vector.
    match goal with |- context [normalize ?c] =>
      pose proof (normalize_coefficients_markers (coefficients_ c)) as H;
      change (normalize_coefficients (coefficients_ c))
        with (coefficients_ (normalize c)) in H
    end.
    cbn [coefficients_] in H. rewrite count_markers_unmarked in H. lia.
  - intros coeffs cf. unfold set_coefficients.
    match goal with |- context [normalize ?c] =>
      pose proof (normalize_coefficients_markers (coefficients_ c)) as H;
      change (normalize_coefficients (coefficients_ c))
        with (coefficients_ (normalize c)) in H
    end.
    cbn [with_coefficients coefficients_] in H.
    rewrite count_markers_unmarked in H. lia.
  - intros cf. unfold clear.
    match goal with |- context [normalize ?c] =>
      pose proof (normalize_coefficients_markers (coefficients_ c)) as H;
      change (normalize_coefficients (coefficients_ c))
        with (coefficients_ (normalize c)) in H
    end.
    change (count_markers _) with 0%nat in H at 2. lia.
  - intros x cf. unfold add_coefficient.
    match goal with |- context [normalize ?c] =>
      pose proof (normalize_coefficients_markers (coefficients_ c)) as H;
      change (normalize_coefficients (coefficients_ c))
        with (coefficients_ (normalize c)) in H
    end.
    cbn [with_coefficients coefficients_] in H.
    rewrite count_markers_app in H.
    change (count_markers [Coefficient_of x]) with 0%nat in H. lia.
Qed.

(* ================================================================== *)
(** ** Mutators on canonical sequences *)

Lemma signed_value_of_map l :
  Forall Int64.in_range l -> map signed_value (map Coefficient_of l) = l.
Proof.
  induction 1 as [|a l Ha Hl IH]; [reflexivity|].
  cbn [map]. rewrite IH. f_equal. now apply signed_value_ctor.
Qed.

(** The loop walks over positions that hold no plain 1 without touching the
    sequence. *)
Lemma merge_loop_skip k : forall fuel i v,
  (forall j c, (i <= j < i + k)%nat -> nth_error v (j + 1) = Some c ->
               is_plain_one c = false) ->
  merge_loop (k + fuel) i v = merge_loop fuel (i + k) v.
Proof.
  induction k as [|k IH]; intros fuel i v H.
  - now rewrite Nat.add_0_r.
  - cbn [Nat.add]. rewrite merge_loop_S.
    destruct (Nat.ltb_spec (i + 2) (length v)) as [E|E].
    + destruct (split_at3 v i E) as (pre & ci & c1 & c2 & post & Ev & Ei).
      pose proof (nth_error_split3 pre ci c1 c2 post) as Hn. cbn zeta in Hn.
      rewrite <- Ev, Ei in Hn. destruct Hn as (-> & E1 & ->). rewrite E1.
      rewrite (H i c1 ltac:(lia) E1).
      rewrite IH; [f_equal; lia|].
      intros j c Hj. apply H. lia.
    + destruct fuel; [reflexivity|]. rewrite merge_loop_S.
      destruct (Nat.ltb_spec (i + S k + 2) (length v)); [lia|reflexivity].
Qed.

Lemma no_zero_after_first_app v x :
  v <> [] -> no_zero_after_first v = true -> (value x =? 0) = false ->
  no_zero_after_first (v ++ [x]) = true.
Proof.
  destruct v as [|c0 v']; [congruence|]. intros _ H Hx.
  cbn [app no_zero_after_first] in *. rewrite forallb_app, H. cbn. now rewrite Hx.
Qed.

Lemma value_of_nonzero x :
  Int64.in_range x -> x <> 0 -> (value (Coefficient_of x) =? 0) = false.
Proof.
  unfold Int64.in_range, Int64.min_signed, Int64.max_signed. intros Hx Hn.
  cbn [Coefficient_of Coefficient_ctor value].
  apply Z.eqb_neq.
  destruct (Z.eq_dec x (- 2 ^ 63)) as [->|Hm]; [vm_compute; discriminate|].
  rewrite wrap_small
    by (unfold Int64.in_range, Int64.min_signed, Int64.max_signed; lia).
  lia.
Qed.

Lemma nth_error_last {A} (v : list A) : forall j c d,
  nth_error v j = Some c -> (j + 1)%nat = length v -> last v d = c.
Proof.
  induction v as [|c0 v IH]; intros j c d Hnth Hj; [destruct j; discriminate|].
  destruct j as [|j].
  - destruct v; [|cbn [length] in Hj; lia]. cbn in *. congruence.
  - cbn [nth_error] in Hnth. cbn [length] in Hj.
    destruct v as [|c1 v']; [destruct j; discriminate|].
    change (last (c0 :: c1 :: v') d) with (last (c1 :: v') d).
    apply (IH j); [exact Hnth|lia].
Qed.

(** X4.  [simplify] on a canonical sequence changes no coefficient (it only
    refreshes the flags and drops the cache). *)
Theorem simplify_canonical_is_noop cf :
  canonical (coefficients_ cf) = true ->
  coefficients_ (simplify cf) = coefficients_ cf /\
  get_coefficients (simplify cf) = get_coefficients cf /\
  operator_eq (simplify cf) cf = true.
Proof.
  intros H.
  assert (E : coefficients_ (simplify cf) = coefficients_ cf)
    by (apply normalize_coefficients_canonical, H).
  split; [exact E|]. split.
  - unfold get_coefficients. now rewrite E.
  - unfold operator_eq. rewrite E, Nat.eqb_refl. apply coefficients_eqb_refl.
Qed.

Lemma simplify_canonical_is_noop_witness :
  coefficients_ (simplify (ContinuedFraction_of_vector [3; 7; 16]))
  = coefficients_ (ContinuedFraction_of_vector [3; 7; 16]) /\
  get_coefficients (simplify (ContinuedFraction_of_vector [3; 7; 16]))
  = get_coefficients (ContinuedFraction_of_vector [3; 7; 16]) /\
  operator_eq (simplify (ContinuedFraction_of_vector [3; 7; 16]))
              (ContinuedFraction_of_vector [3; 7; 16]) = true.
Proof.
  apply (simplify_canonical_is_noop (ContinuedFraction_of_vector [3; 7; 16])).
  vm_compute. reflexivity.
Defined.

(** X5.  Setting a list that is already canonical (no zero after the first
    entry, no plain 1 strictly inside) and reading it back returns the list:
    nothing is dropped or merged.  The same holds for the list
    constructor. *)
Theorem set_then_get_coefficients l cf :
  Forall Int64.in_range l ->
  canonical (map Coefficient_of l) = true ->
  get_coefficients (set_coefficients l cf) = l /\
  get_coefficients (ContinuedFraction_of_vector l) = l.
Proof.
  intros Hr Hc. unfold get_coefficients, set_coefficients, ContinuedFraction_of_vector.
  unfold normalize.
  cbn [invalidate_cache update_flags with_coefficients coefficients_].
  rewrite normalize_coefficients_canonical by assumption.
  split; now apply signed_value_of_map.
Qed.

Lemma set_then_get_coefficients_witness :
  get_coefficients (set_coefficients [0; 2; -5; 1] ContinuedFraction_default)
  = [0; 2; -5; 1] /\
  get_coefficients (ContinuedFraction_of_vector [0; 2; -5; 1]) = [0; 2; -5; 1].
Proof.
  apply (set_then_get_coefficients [0; 2; -5; 1] ContinuedFraction_default).
  - repeat constructor; vm_compute; discriminate.
  - vm_compute. reflexivity.
Defined.

(** X6.  Adding the coefficient 0 to a non-empty canonical sequence changes
    nothing: the zero is filtered out again. *)
Theorem add_zero_coefficient_is_dropped cf :
  coefficients_ cf <> [] ->
  canonical (coefficients_ cf) = true ->
  coefficients_ (add_coefficient 0 cf) = coefficients_ cf.
Proof.
  intros Hne Hc. unfold add_coefficient, normalize.
  cbn [invalidate_cache update_flags with_coefficients coefficients_].
  unfold normalize_coefficients.
  assert (E : remove_zeros (coefficients_ cf ++ [Coefficient_of 0])
              = coefficients_ cf).
  { unfold canonical in Hc. apply andb_true_iff in Hc as [Hz _].
    destruct (coefficients_ cf) as [|c0 v']; [contradiction|].
    unfold remove_zeros. cbn [app length].
    rewrite length_app. cbn [length].
    destruct (Nat.ltb_spec 1 (S (length v' + 1))); [|lia].
    rewrite filter_app. cbn [no_zero_after_first] in Hz.
    rewrite forallb_filter_id by assumption.
    cbn. now rewrite app_nil_r. }
  rewrite E. apply merge_loop_canonical.
  unfold canonical in Hc. now apply andb_true_iff in Hc as [_ Hc].
Qed.

Lemma add_zero_coefficient_is_dropped_witness :
  coefficients_ (add_coefficient 0 (ContinuedFraction_of_vector [3; 7; 16]))
  = coefficients_ (ContinuedFraction_of_vector [3; 7; 16]).
Proof.
  apply (add_zero_coefficient_is_dropped (ContinuedFraction_of_vector [3; 7; 16])).
  - vm_compute. discriminate.
  - vm_compute. reflexivity.
Defined.

(** X7.  Adding a non-zero coefficient to a canonical sequence that does not end
    in a plain 1 (or has a single coefficient) appends it and changes nothing
    else. *)
Theorem add_coefficient_appends x cf :
  Int64.in_range x -> x <> 0 ->
  coefficients_ cf <> [] ->
  canonical (coefficients_ cf) = true ->
  ((2 <= size cf)%nat ->
   is_plain_one (last (coefficients_ cf) (Coefficient_of 0)) = false) ->
  coefficients_ (add_coefficient x cf) = coefficients_ cf ++ [Coefficient_of x].
Proof.
  intros Hx Hx0 Hne Hc Hlast. unfold add_coefficient, normalize, size in *.
  cbn [invalidate_cache update_flags with_coefficients coefficients_].
  apply normalize_coefficients_canonical.
  unfold canonical in *. apply andb_true_iff in Hc as [Hz Hi].
  apply andb_true_iff. split.
  - apply no_zero_after_first_app; [assumption..|]. now apply value_of_nonzero.
  - apply no_interior_one_intro. intros j c Hj Hlen Hnth.
    rewrite length_app in Hlen. cbn [length] in Hlen.
    rewrite nth_error_app1 in Hnth by lia.
    destruct (Nat.eq_dec (j + 1) (length (coefficients_ cf))) as [Ej|Ej].
    + (* the former last coefficient *)
      rewrite <- (Hlast ltac:(lia)). f_equal. symmetry.
      now apply (nth_error_last _ j).
    + destruct j as [|j]; [lia|].
      apply (no_interior_one_nth _ Hi j c); [lia|].
      now replace (j + 1)%nat with (S j) by lia.
Qed.

Lemma add_coefficient_appends_witness :
  coefficients_ (add_coefficient 5 (ContinuedFraction_of_vector [3; 7; 16]))
  = coefficients_ (ContinuedFraction_of_vector [3; 7; 16]) ++ [Coefficient_of 5].
Proof.
  apply (add_coefficient_appends 5 (ContinuedFraction_of_vector [3; 7; 16])).
  - vm_compute. split; discriminate.
  - discriminate.
  - vm_compute. discriminate.
  - vm_compute. reflexivity.
  - intros _. vm_compute. reflexivity.
Defined.

(** X8.  Adding a non-zero coefficient [x] to a canonical sequence that ends in
    [a, 1] does not append: the trailing 1 becomes interior and is merged, so
    the last two coefficients are replaced by the single coefficient
    [a + x]. *)
Theorem add_coefficient_merges_trailing_one x cf pre a one :
  Int64.in_range x -> x <> 0 ->
  coefficients_ cf = pre ++ [a; one] ->
  is_plain_one one = true ->
  canonical (coefficients_ cf) = true ->
  coefficients_ (add_coefficient x cf)
  = pre ++ [Coefficient_of (Int64.wrap (signed_value a + x))].
Proof.
  intros Hx Hx0 Ev H1 Hc. unfold add_coefficient, normalize.
  cbn [invalidate_cache update_flags with_coefficients coefficients_].
  unfold canonical in Hc. apply andb_true_iff in Hc as [Hz Hi].
  rewrite Ev in *. clear Ev.
  set (X := Coefficient_of x).
  assert (Ev' : (pre ++ [a; one]) ++ [X] = pre ++ a :: one :: X :: [])
    by (rewrite <- app_assoc; reflexivity).
  unfold normalize_coefficients.
  assert (Er : remove_zeros ((pre ++ [a; one]) ++ [X]) = (pre ++ [a; one]) ++ [X]).
  { apply remove_zeros_canonical, no_zero_after_first_app;
      [destruct pre; discriminate|assumption|now apply value_of_nonzero]. }
  rewrite Er, Ev'.
  replace (length (pre ++ [a; one; X])) with (length pre + 3)%nat
    by (rewrite length_app; reflexivity).
  rewrite merge_loop_skip.
  2: { intros j c Hj Hnth.
       apply (no_interior_one_nth _ Hi j c).
       - rewrite length_app. cbn [length]. lia.
       - destruct (Nat.eq_dec (j + 1) (length pre)) as [E|E].
         + rewrite nth_error_app2 by lia.
           rewrite nth_error_app2 in Hnth by lia.
           replace (j + 1 - length pre)%nat with 0%nat in * by lia.
           exact Hnth.
         + rewrite nth_error_app1 by lia.
           rewrite nth_error_app1 in Hnth by lia. exact Hnth. }
  cbn [Nat.add]. rewrite merge_loop_S.
  rewrite length_app. cbn [length].
  destruct (Nat.ltb_spec (length pre + 2) (length pre + 3)) as [_|]; [|lia].
  destruct (nth_error_split3 pre a one X []) as (-> & -> & ->).
  rewrite H1, merge_shape.
  unfold X at 1.
  change (signed_value (Coefficient_of x))
    with (signed_value (Coefficient_ctor x false false)).
  rewrite signed_value_ctor by assumption.
  rewrite merge_loop_S, length_app. cbn [length].
  destruct (Nat.ltb_spec (length pre + 2) (length pre + 1)); [lia|reflexivity].
Qed.

Lemma add_coefficient_merges_trailing_one_witness :
  coefficients_ (add_coefficient 292 (ContinuedFraction_of_vector [3; 7; 15; 1]))
  = map Coefficient_of [3; 7]
    ++ [Coefficient_of (Int64.wrap (signed_value (Coefficient_of 15) + 292))].
Proof.
  apply (add_coefficient_merges_trailing_one 292
           (ContinuedFraction_of_vector [3; 7; 15; 1])
           (map Coefficient_of [3; 7]) (Coefficient_of 15) (Coefficient_of 1)).
  - vm_compute. split; discriminate.
  - discriminate.
  - vm_compute. reflexivity.
  - vm_compute. reflexivity.
  - vm_compute. reflexivity.
Defined.

(** X9.  Every mutator and [create_periodic] re-establish the class invariant:
    the stored coefficients are constructor-built values of [long long],
    [is_periodic()] tells exactly whether a marked coefficient is stored,
    and [is_finite()] is its negation. *)
Theorem mutators_keep_invariant :
  (forall coeffs cf, Forall Int64.in_range coeffs ->
     ContinuedFraction_wf (set_coefficients coeffs cf)) /\
  (forall x cf, Int64.in_range x -> ContinuedFraction_wf cf ->
     ContinuedFraction_wf (add_coefficient x cf)) /\
  (forall cf, ContinuedFraction_wf cf -> ContinuedFraction_wf (simplify cf)) /\
  (forall cf, ContinuedFraction_wf (clear cf)) /\
  (forall non_periodic periodic,
     Forall Int64.in_range non_periodic -> Forall Int64.in_range periodic ->
     ContinuedFraction_wf (create_periodic non_periodic periodic)).
Proof.
  assert (Hmap : forall l, Forall Int64.in_range l ->
                 Forall Coefficient_wf (map Coefficient_of l)).
  { intros l H. apply Forall_map. eapply Forall_impl; [|exact H].
    intros v Hv. now apply Coefficient_ctor_wf. }
  split; [|split; [|split; [|split]]].
  - intros coeffs cf H. apply normalize_wf. cbn [with_coefficients coefficients_].
    now apply Hmap.
  - intros x cf Hx (Hwf & _). apply normalize_wf.
    cbn [with_coefficients coefficients_].
    apply Forall_app. split; [assumption|].
    constructor; [now apply Coefficient_ctor_wf|constructor].
  - intros cf (Hwf & _). now apply normalize_wf.
  - intros cf. apply normalize_wf. cbn [with_coefficients coefficients_].
    constructor; [|constructor]. apply Coefficient_ctor_wf.
    vm_compute. split; discriminate.
  - intros np p Hnp Hp. apply normalize_wf.
    cbn [with_coefficients coefficients_].
    apply Forall_app. split; [now apply Hmap|].
    destruct p as [|p0 ps]; [constructor|].
    inversion Hp as [|? ? Hp0 Hps]; subst.
    constructor; [now apply Coefficient_ctor_wf|now apply Hmap].
Qed.

(* ================================================================== *)
(** ** Exact comparison *)

Lemma Coefficient_eqb_key a b :
  Coefficient_eqb a b = true <-> coefficient_key a = coefficient_key b.
Proof.
  unfold Coefficient_eqb, coefficient_key.
  rewrite andb_true_iff, Z.eqb_eq, eqb_true_iff.
  split; [intros [-> ->]; reflexivity|intros [= -> ->]; split; reflexivity].
Qed.

Lemma coefficients_eqb_key a : forall b,
  coefficients_eqb a b = true <-> map coefficient_key a = map coefficient_key b.
Proof.
  induction a as [|x a IH]; intros [|y b]; cbn [coefficients_eqb map];
    try (split; [reflexivity|reflexivity]); try (split; discriminate).
  rewrite andb_true_iff, Coefficient_eqb_key, IH.
  split; [intros [-> ->]; reflexivity|intros H; split; congruence].
Qed.

Lemma operator_eq_key a b :
  operator_eq a b = true <->
  map coefficient_key (coefficients_ a) = map coefficient_key (coefficients_ b).
Proof.
  unfold operator_eq.
  destruct (Nat.eqb_spec (length (coefficients_ a)) (length (coefficients_ b)))
    as [E|E]; cbn [negb].
  - apply coefficients_eqb_key.
  - split; [discriminate|]. intros H. exfalso. apply E.
    now rewrite <- (length_map coefficient_key), H, length_map.
Qed.

(** X10.  [operator==] holds exactly when the two sequences have the same signed
    values and the same marker flags position by position; the magnitude and
    sign representation, the finiteness flags and the cache play no part.
    [operator!=] is its negation. *)
Theorem operator_eq_compares_values_and_markers a b :
  (operator_eq a b = true <->
   map coefficient_key (coefficients_ a) = map coefficient_key (coefficients_ b)) /\
  operator_ne a b = negb (operator_eq a b).
Proof. split; [apply operator_eq_key|reflexivity]. Qed.

(** X11.  [operator==] is an equivalence relation. *)
Theorem operator_eq_is_equivalence :
  (forall a, operator_eq a a = true) /\
  (forall a b, operator_eq a b = operator_eq b a) /\
  (forall a b c, operator_eq a b = true -> operator_eq b c = true ->
                 operator_eq a c = true).
Proof.
  split; [|split].
  - intros a. now apply operator_eq_key.
  - intros a b.
    destruct (operator_eq a b) eqn:E1, (operator_eq b a) eqn:E2; try reflexivity.
    + apply operator_eq_key in E1. symmetry in E1.
      apply operator_eq_key in E1. congruence.
    + apply operator_eq_key in E2. symmetry in E2.
      apply operator_eq_key in E2. congruence.
  - intros a b c H1 H2. apply operator_eq_key in H1, H2.
    apply operator_eq_key. congruence.
Qed.

Lemma coefficient_key_eq x y :
  coefficient_key x = coefficient_key y ->
  signed_value x = signed_value y /\ is_periodic_marker x = is_periodic_marker y.
Proof. unfold coefficient_key. intros H. split; congruence. Qed.

Lemma map_key_cons x v y w :
  map coefficient_key (x :: v) = map coefficient_key (y :: w) ->
  coefficient_key x = coefficient_key y /\
  map coefficient_key v = map coefficient_key w.
Proof. cbn [map]. intros H. split; congruence. Qed.

Lemma print_tail_key v : forall w,
  map coefficient_key v = map coefficient_key w -> print_tail v = print_tail w.
Proof.
  induction v as [|x v IH]; intros [|y w] H; try discriminate; [reflexivity|].
  apply map_key_cons in H as [Hk Hrest].
  apply coefficient_key_eq in Hk as [Hs Hm].
  cbn [print_tail]. unfold separator. rewrite Hs, Hm, (IH w Hrest). reflexivity.
Qed.

Lemma has_marker_key v w :
  map coefficient_key v = map coefficient_key w -> has_marker v = has_marker w.
Proof.
  revert w. induction v as [|x v IH]; intros [|y w] H; try discriminate;
    [reflexivity|].
  apply map_key_cons in H as [Hk Hrest].
  apply coefficient_key_eq in Hk as [Hs Hm].
  unfold has_marker in *. cbn [existsb]. now rewrite Hm, (IH w Hrest).
Qed.

(** X12.  Two fractions that are equal under [operator==] and whose flags agree
    with their markers print the same text. *)
Theorem equal_fractions_print_alike a b :
  is_periodic_ a = has_marker (coefficients_ a) ->
  is_periodic_ b = has_marker (coefficients_ b) ->
  operator_eq a b = true ->
  to_string a = to_string b.
Proof.
  intros Ha Hb H. apply operator_eq_key in H.
  unfold to_string. rewrite Ha, Hb, (has_marker_key _ _ H).
  destruct (coefficients_ a) as [|x v], (coefficients_ b) as [|y w];
    try discriminate; [reflexivity|].
  apply map_key_cons in H as [Hk Hrest].
  apply coefficient_key_eq in Hk as [Hs Hm].
  now rewrite Hs, (print_tail_key v w Hrest).
Qed.

Lemma equal_fractions_print_alike_witness :
  to_string (create_periodic [1] [2; 3])
  = to_string (set_cache 1.5%float (create_periodic [1; 0] [2; 0; 3])).
Proof.
  apply equal_fractions_print_alike; vm_compute; reflexivity.
Defined.

(* ================================================================== *)
(** ** Convergents *)

(** X13.  For a finite fraction [convergent(n)] throws [out_of_range] exactly when
    [n >= size()], and returns a pair for every smaller index: no read leaves
    the vector. *)
Theorem convergent_of_finite_fraction n cf :
  is_finite cf = true ->
  (convergent n cf = throw out_of_range <-> (size cf <= n)%nat) /\
  ((n < size cf)%nat -> exists p, convergent n cf = ret p).
Proof.
  unfold is_finite, size. intros Hf.
  assert (Hin : (n < length (coefficients_ cf))%nat ->
                exists p, convergent n cf = ret p).
  { intros Hn. unfold convergent. rewrite Hf.
    destruct (Nat.leb_spec (length (coefficients_ cf)) n); [lia|].
    cbn [andb]. apply compute_convergent_in_bounds. lia. }
  split; [|exact Hin]. split.
  - intros H. destruct (Nat.le_gt_cases (length (coefficients_ cf)) n) as [|Hn];
      [assumption|].
    destruct (Hin Hn) as [p Hp]. rewrite Hp in H. discriminate.
  - intros H. unfold convergent. rewrite Hf.
    destruct (Nat.leb_spec (length (coefficients_ cf)) n); [reflexivity|lia].
Qed.

Lemma convergent_of_finite_fraction_witness :
  (convergent 3 (ContinuedFraction_of_vector [3; 7; 16]) = throw out_of_range
   <-> (size (ContinuedFraction_of_vector [3; 7; 16]%Z) <= 3)%nat) /\
  ((3 < size (ContinuedFraction_of_vector [3; 7; 16]%Z))%nat ->
   exists p, convergent 3 (ContinuedFraction_of_vector [3; 7; 16]) = ret p).
Proof.
  apply (convergent_of_finite_fraction 3 (ContinuedFraction_of_vector [3; 7; 16])).
  vm_compute. reflexivity.
Defined.

(** X14.  For a periodic fraction that stores at least two coefficients
    [convergent(n)] returns a pair for every [n]: it never throws and the
    wrap-around of the index keeps every read inside the vector. *)
Theorem convergent_of_periodic_fraction n cf :
  is_finite cf = false -> (2 <= size cf)%nat ->
  exists p, convergent n cf = ret p.
Proof.
  unfold is_finite, size. intros Hf Hs. unfold convergent. rewrite Hf.
  rewrite andb_false_r. apply compute_convergent_in_bounds. now left.
Qed.

Lemma convergent_of_periodic_fraction_witness :
  exists p, convergent 1000 (create_periodic [1] [2]) = ret p.
Proof.
  apply (convergent_of_periodic_fraction 1000 (create_periodic [1] [2])).
  - vm_compute. reflexivity.
  - vm_compute. lia.
Defined.

(** *** The determinant of consecutive convergents *)

Lemma wrap_eqm a b :
  a mod Int64.modulus = b mod Int64.modulus -> Int64.wrap a = Int64.wrap b.
Proof.
  unfold Int64.wrap, Int64.modulus. intros H.
  rewrite (Z.add_mod a), (Z.add_mod b), H by lia. reflexivity.
Qed.

Lemma wrap_mod a : Int64.wrap a mod Int64.modulus = a mod Int64.modulus.
Proof.
  unfold Int64.wrap, Int64.modulus.
  rewrite Zminus_mod, Z.mod_mod, <- Zminus_mod by lia. f_equal. lia.
Qed.

Lemma convergent_loop_states v count : forall i pn pd cn cd,
  convergent_loop v count i pn pd cn cd
  = (st <- convergent_states v count i pn pd cn cd ;;
     let '(_, _, p, q) := st in ret (p, q)).
Proof.
  induction count as [|count IH]; intros i pn pd cn cd; [reflexivity|].
  cbn [convergent_loop convergent_states].
  destruct (vec_at v (i mod length v)) as [f|c]; [reflexivity|].
  cbn [bind]. apply IH.
Qed.

Lemma convergent_states_S v count i pn pd cn cd :
  convergent_states v (S count) i pn pd cn cd
  = (c <- vec_at v (i mod length v) ;;
     convergent_states v count (S i) cn cd
       (Int64.wrap (signed_value c * cn + pn))
       (Int64.wrap (signed_value c * cd + pd))).
Proof. reflexivity. Qed.

(** One more iteration is one more step from the state reached. *)
Lemma convergent_states_snoc v count : forall i pn pd cn cd,
  convergent_states v (S count) i pn pd cn cd
  = (st <- convergent_states v count i pn pd cn cd ;;
     let '(pn', pd', cn', cd') := st in
     convergent_states v 1 (i + count) pn' pd' cn' cd').
Proof.
  induction count as [|count IH]; intros i pn pd cn cd.
  - cbn [convergent_states bind ret]. now rewrite Nat.add_0_r.
  - rewrite (convergent_states_S v (S count)), (convergent_states_S v count).
    destruct (vec_at v (i mod length v)) as [f|c]; [reflexivity|].
    cbn [bind]. rewrite IH.
    replace (S i + count)%nat with (i + S count)%nat by lia. reflexivity.
Qed.

#[local] Instance eqm64_equivalence : Equivalence (eqm Int64.modulus) :=
  eqm_setoid Int64.modulus.
#[local] Instance eqm64_add
  : Proper (eqm Int64.modulus ==> eqm Int64.modulus ==> eqm Int64.modulus) Z.add :=
  Zplus_eqm Int64.modulus.
#[local] Instance eqm64_sub
  : Proper (eqm Int64.modulus ==> eqm Int64.modulus ==> eqm Int64.modulus) Z.sub :=
  Zminus_eqm Int64.modulus.
#[local] Instance eqm64_mul
  : Proper (eqm Int64.modulus ==> eqm Int64.modulus ==> eqm Int64.modulus) Z.mul :=
  Zmult_eqm Int64.modulus.

Lemma wrap_eqm_id x : eqm Int64.modulus (Int64.wrap x) x.
Proof. apply wrap_mod. Qed.

(** The invariant of the recurrence, modulo [2^64]: the determinant
    [curr_num * prev_den - prev_num * curr_den] changes sign at every
    step. *)
Lemma convergent_states_determinant v count : forall i pn pd cn cd st,
  convergent_states v count i pn pd cn cd = ret st ->
  let '(pn', pd', cn', cd') := st in
  Int64.wrap (cn' * pd' - pn' * cd')
  = Int64.wrap ((-1) ^ Z.of_nat count * (cn * pd - pn * cd)).
Proof.
  induction count as [|count IH]; intros i pn pd cn cd st H.
  - cbn [convergent_states ret] in H. injection H as <-.
    cbv beta iota zeta. f_equal. change (Z.of_nat 0) with 0.
    rewrite Z.pow_0_r. lia.
  - rewrite convergent_states_S in H.
    destruct (vec_at v (i mod length v)) as [f|c]; [discriminate|].
    cbn [bind] in H. specialize (IH _ _ _ _ _ _ H).
    destruct st as [[[pn' pd'] cn'] cd']. rewrite IH.
    apply wrap_eqm. change (eqm Int64.modulus
      ((-1) ^ Z.of_nat count *
         (Int64.wrap (signed_value c * cn + pn) * cd
          - cn * Int64.wrap (signed_value c * cd + pd)))
      ((-1) ^ Z.of_nat (S count) * (cn * pd - pn * cd))).
    rewrite !wrap_eqm_id.
    rewrite Nat2Z.inj_succ, Z.pow_succ_r by lia.
    match goal with |- eqm _ ?x ?y => replace x with y by ring end.
    reflexivity.
Qed.

Lemma wrap_sign k : Int64.wrap ((-1) ^ Z.of_nat k) = (-1) ^ Z.of_nat k.
Proof.
  apply wrap_small.
  assert (H : (-1) ^ Z.of_nat k = 1 \/ (-1) ^ Z.of_nat k = -1).
  { induction k as [|k IH]; [left; reflexivity|].
    rewrite Nat2Z.inj_succ, Z.pow_succ_r by lia. lia. }
  unfold Int64.in_range, Int64.min_signed, Int64.max_signed. lia.
Qed.

Lemma compute_convergent_S n cf :
  compute_convergent (S n) cf
  = (c0 <- vec_at (coefficients_ cf) 0 ;;
     c1 <- vec_at (coefficients_ cf) 1 ;;
     convergent_loop (coefficients_ cf) n 2 (signed_value c0) 1
       (Int64.wrap (signed_value c0 * signed_value c1 + 1)) (signed_value c1)).
Proof.
  unfold compute_convergent. cbn [Nat.eqb Nat.sub].
  now rewrite Nat.sub_0_r.
Qed.

Lemma convergent_ret n cf p :
  convergent n cf = ret p -> compute_convergent n cf = ret p.
Proof.
  unfold convergent. destruct (_ && _); [discriminate|trivial].
Qed.

(** X15.  Consecutive convergents satisfy
    [p(n+1) * q(n) - p(n) * q(n+1) = (-1)^n] in [long long] arithmetic
    (that is, modulo [2^64]), for finite and for periodic fractions alike. *)
Theorem consecutive_convergents_determinant n cf p q p' q' :
  convergent n cf = ret (p, q) ->
  convergent (S n) cf = ret (p', q') ->
  Int64.wrap (p' * q - p * q') = (-1) ^ Z.of_nat n.
Proof.
  intros H0 H1. apply convergent_ret in H0, H1.
  rewrite compute_convergent_S in H1.
  destruct (vec_at (coefficients_ cf) 0) as [f|c0] eqn:E0; [discriminate|].
  destruct (vec_at (coefficients_ cf) 1) as [f|c1] eqn:E1; [discriminate|].
  cbn [bind] in H1.
  rewrite convergent_loop_states in H1.
  destruct n as [|m].
  - unfold compute_convergent in H0. cbn [Nat.eqb] in H0.
    rewrite E0 in H0. cbn [bind ret] in H0. injection H0 as <- <-.
    cbn [convergent_states bind ret] in H1. injection H1 as <- <-.
    rewrite <- (wrap_sign 0). apply wrap_eqm.
    change (eqm Int64.modulus
              (Int64.wrap (signed_value c0 * signed_value c1 + 1) * 1
               - signed_value c0 * signed_value c1) ((-1) ^ Z.of_nat 0)).
    rewrite wrap_eqm_id. change ((-1) ^ Z.of_nat 0) with 1.
    match goal with |- eqm _ ?x ?y => replace x with y by ring end.
    reflexivity.
  - rewrite compute_convergent_S, E0, E1 in H0. cbn [bind] in H0.
    rewrite convergent_loop_states in H0.
    rewrite convergent_states_snoc in H1.
    destruct (convergent_states (coefficients_ cf) m 2 _ _ _ _)
      as [f|[[[pn pd] cn] cd]] eqn:Es; [discriminate|].
    cbn [bind ret] in H0, H1. injection H0 as <- <-.
    pose proof (convergent_states_determinant _ _ _ _ _ _ _ _ Es) as Hd.
    cbv beta iota zeta in Hd.
    rewrite convergent_states_S in H1.
    destruct (vec_at (coefficients_ cf) ((2 + m) mod _)) as [f|c];
      [discriminate|].
    cbn [bind convergent_states ret] in H1. cbv beta iota zeta in H1.
    injection H1 as <- <-.
    rewrite <- (wrap_sign (S m)). apply wrap_eqm.
    assert (Hd' : eqm Int64.modulus (cn * pd - pn * cd) ((-1) ^ Z.of_nat m)).
    { rewrite <- (wrap_eqm_id (cn * pd - pn * cd)), Hd, wrap_eqm_id, wrap_eqm_id.
      match goal with |- eqm _ ?x ?y => replace x with y by ring end.
      reflexivity. }
    change (eqm Int64.modulus
              (Int64.wrap (signed_value c * cn + pn) * cd
               - cn * Int64.wrap (signed_value c * cd + pd))
              ((-1) ^ Z.of_nat (S m))).
    rewrite !wrap_eqm_id.
    rewrite Nat2Z.inj_succ, Z.pow_succ_r by lia.
    rewrite <- Hd'.
    match goal with |- eqm _ ?x ?y => replace x with y by ring end.
    reflexivity.
Qed.

Lemma consecutive_convergents_determinant_witness :
  Int64.wrap (355 * 7 - 22 * 113) = (-1) ^ Z.of_nat 1.
Proof.
  apply (consecutive_convergents_determinant 1
           (ContinuedFraction_of_vector [3; 7; 16]) 22 7 355 113).
  - vm_compute. reflexivity.
  - vm_compute. reflexivity.
Defined.


(** *** The recurrence over the integers *)

Lemma recurrence_app l1 : forall l2 pp qp p q,
  recurrence (l1 ++ l2) pp qp p q
  = let '(pp', qp', p', q') := recurrence l1 pp qp p q in
    recurrence l2 pp' qp' p' q'.
Proof.
  induction l1 as [|a l1 IH]; intros l2 pp qp p q; [reflexivity|].
  cbn [app recurrence]. apply IH.
Qed.

Lemma recurrence_determinant l : forall pp qp p q,
  let '(pp', qp', p', q') := recurrence l pp qp p q in
  p' * qp' - pp' * q' = (-1) ^ Z.of_nat (length l) * (p * qp - pp * q).
Proof.
  induction l as [|a l IH]; intros pp qp p q.
  - cbn [recurrence length]. change (Z.of_nat 0) with 0. rewrite Z.pow_0_r. lia.
  - cbn [recurrence length]. specialize (IH p q (a * p + pp) (a * q + qp)).
    destruct (recurrence l p q (a * p + pp) (a * q + qp)) as [[[pp' qp'] p'] q'].
    rewrite IH, Nat2Z.inj_succ, Z.pow_succ_r by lia. ring.
Qed.

Lemma recurrence_denominator l : forall pp qp p q,
  Forall (fun a => 1 <= a) l -> 0 <= qp -> 1 <= q ->
  let '(_, qp', _, q') := recurrence l pp qp p q in 0 <= qp' /\ 1 <= q'.
Proof.
  induction l as [|a l IH]; intros pp qp p q Hl Hqp Hq; [cbn; lia|].
  inversion Hl as [|? ? Ha Hl']; subst. cbn [recurrence].
  apply IH; [assumption|lia|nia].
Qed.

Lemma cf_value_cons a l :
  l <> [] -> cf_value (a :: l) = (inject_Z a + / cf_value l)%Q.
Proof. destruct l; [congruence|reflexivity]. Qed.

Lemma cf_value_positive l :
  l <> [] -> Forall (fun a => 1 <= a) l -> (1 <= cf_value l)%Q.
Proof.
  induction l as [|a l IH]; intros Hne Hl; [congruence|].
  inversion Hl as [|? ? Ha Hl']; subst.
  assert (Ha' : (1 <= inject_Z a)%Q)
    by (change 1%Q with (inject_Z 1); now rewrite <- Zle_Qle).
  destruct l as [|b l']; [exact Ha'|].
  rewrite cf_value_cons by discriminate.
  specialize (IH ltac:(discriminate) Hl').
  assert (0 < / cf_value (b :: l'))%Q.
  { apply Qinv_lt_0_compat. eapply Qlt_le_trans; [|exact IH]. reflexivity. }
  apply Qle_trans with (inject_Z a + 0)%Q.
  - now rewrite Qplus_0_r.
  - apply Qplus_le_r. now apply Qlt_le_weak.
Qed.

(** The state reached after the partial quotients [l], in terms of the
    value [x] of [l] as a continued fraction:
    [p' / q' = (x * p + p_prev) / (x * q + q_prev)], cross-multiplied. *)
Lemma recurrence_value l : forall pp qp p q,
  l <> [] -> Forall (fun a => 1 <= a) l ->
  let '(_, _, p', q') := recurrence l pp qp p q in
  (inject_Z p' * (cf_value l * inject_Z q + inject_Z qp)
   == inject_Z q' * (cf_value l * inject_Z p + inject_Z pp))%Q.
Proof.
  induction l as [|a l IH]; intros pp qp p q Hne Hl; [congruence|].
  inversion Hl as [|? ? Ha Hl']; subst.
  destruct l as [|b l'].
  - cbn [recurrence cf_value].
    rewrite !inject_Z_plus, !inject_Z_mult. ring.
  - specialize (IH p q (a * p + pp) (a * q + qp) ltac:(discriminate) Hl').
    pose proof (cf_value_positive (b :: l') ltac:(discriminate) Hl') as Hx.
    rewrite cf_value_cons by discriminate.
    change (recurrence (a :: b :: l') pp qp p q)
      with (recurrence (b :: l') p q (a * p + pp) (a * q + qp)).
    destruct (recurrence (b :: l') p q (a * p + pp) (a * q + qp))
      as [[[pp' qp'] p'] q'].
    rewrite !inject_Z_plus, !inject_Z_mult in IH.
    set (x := cf_value (b :: l')) in *.
    assert (Hx0 : ~ (x == 0)%Q).
    { intros E. rewrite E in Hx. apply Qle_not_lt in Hx. apply Hx. reflexivity. }
    apply (Qmult_inj_l _ _ x Hx0).
    transitivity (inject_Z p' *
                  (x * (inject_Z a * inject_Z q + inject_Z qp) + inject_Z q))%Q;
      [field; exact Hx0|].
    rewrite IH. field. exact Hx0.
Qed.

(** The exact convergent of a list whose entries after the first are at
    least 1: a positive denominator, lowest terms, and the value of the
    list. *)
Lemma exact_convergent_value a0 rest :
  Forall (fun a => 1 <= a) rest ->
  let '(P, Q) := exact_convergent (a0 :: rest) in
  1 <= Q /\ Z.gcd P Q = 1 /\
  (inject_Z P / inject_Z Q == cf_value (a0 :: rest))%Q.
Proof.
  intros Hl. unfold exact_convergent.
  pose proof (recurrence_determinant rest 1 0 a0 1) as Hd.
  pose proof (recurrence_denominator rest 1 0 a0 1 Hl ltac:(lia) ltac:(lia)) as Hq.
  destruct rest as [|b l'].
  - cbn [recurrence cf_value]. repeat split; [lia| |field; discriminate].
    rewrite Z.gcd_1_r. reflexivity.
  - pose proof (recurrence_value (b :: l') 1 0 a0 1 ltac:(discriminate) Hl) as Hv.
    pose proof (cf_value_positive (b :: l') ltac:(discriminate) Hl) as Hx.
    rewrite cf_value_cons by discriminate.
    destruct (recurrence (b :: l') 1 0 a0 1) as [[[pp' qp'] P] Q].
    destruct Hq as [Hq1 Hq2].
    set (x := cf_value (b :: l')) in *.
    assert (Hx0 : ~ (x == 0)%Q).
    { intros E. rewrite E in Hx. apply Qle_not_lt in Hx. apply Hx. reflexivity. }
    assert (HQ0 : ~ (inject_Z Q == 0)%Q) by (apply inject_Z_nonzero; lia).
    split; [exact Hq2|]. split.
    + assert (Hdiv : (Z.gcd P Q | 1)).
      { assert (Hs : (-1) ^ Z.of_nat (length (b :: l')) = 1 \/
                     (-1) ^ Z.of_nat (length (b :: l')) = -1).
        { generalize (length (b :: l')). intros k.
          induction k as [|k IHk]; [left; reflexivity|].
          rewrite Nat2Z.inj_succ, Z.pow_succ_r by lia. lia. }
        pose proof (Z.gcd_divide_l P Q) as [u Hu].
        pose proof (Z.gcd_divide_r P Q) as [w Hw].
        destruct Hs as [Hs|Hs]; rewrite Hs in Hd.
        - exists (w * pp' - u * qp'). nia.
        - exists (u * qp' - w * pp'). nia. }
      apply Z.divide_1_r_nonneg in Hdiv; [exact Hdiv|apply Z.gcd_nonneg].
    + change (inject_Z 1) with 1%Q in Hv. change (inject_Z 0) with 0%Q in Hv.
      apply (Qmult_inj_l _ _ (inject_Z Q * x)%Q).
      { intros E. apply Qmult_integral in E. tauto. }
      transitivity (inject_Z P * (x * 1 + 0))%Q; [field; exact HQ0|].
      rewrite Hv. field. exact Hx0.
Qed.


(** *** The machine recurrence against the exact one *)

Lemma vec_at_cyclic v i :
  (0 < length v)%nat ->
  vec_at v (i mod length v) = ret (nth (i mod length v) v (Coefficient_of 0)).
Proof.
  intros Hv. unfold vec_at.
  rewrite (nth_error_nth' v (Coefficient_of 0)); [reflexivity|].
  apply Nat.mod_upper_bound. lia.
Qed.

Lemma convergent_states_recurrence v : (0 < length v)%nat ->
  forall count i pn pd cn cd PP QP P Q,
  eqm Int64.modulus pn PP -> eqm Int64.modulus pd QP ->
  eqm Int64.modulus cn P -> eqm Int64.modulus cd Q ->
  Int64.in_range cn -> Int64.in_range cd ->
  exists pn' pd' cn' cd',
    convergent_states v count i pn pd cn cd = ret (pn', pd', cn', cd') /\
    Int64.in_range cn' /\ Int64.in_range cd' /\
    let '(_, _, P', Q') :=
      recurrence (map (cyclic_coefficient v) (seq i count)) PP QP P Q in
    eqm Int64.modulus cn' P' /\ eqm Int64.modulus cd' Q'.
Proof.
  intros Hv. induction count as [|count IH];
    intros i pn pd cn cd PP QP P Q Hpn Hpd Hcn Hcd Rcn Rcd.
  - exists pn, pd, cn, cd. cbn [convergent_states seq map recurrence].
    cbv beta iota zeta.
    split; [reflexivity|]. split; [exact Rcn|]. split; [exact Rcd|].
    split; assumption.
  - rewrite convergent_states_S, vec_at_cyclic by assumption.
    cbn [bind ret seq map recurrence].
    fold (cyclic_coefficient v i).
    apply IH; try assumption; try apply wrap_in_range.
    + rewrite wrap_eqm_id. now rewrite Hcn, Hpn.
    + rewrite wrap_eqm_id. now rewrite Hcd, Hpd.
Qed.

Lemma compute_convergent_recurrence n cf p q :
  Forall (fun c => Int64.in_range (signed_value c)) (coefficients_ cf) ->
  compute_convergent n cf = ret (p, q) ->
  let '(P, Q) := exact_convergent (used_coefficients (coefficients_ cf) n) in
  p = Int64.wrap P /\ q = Int64.wrap Q.
Proof.
  intros Hr H. set (v := coefficients_ cf) in *.
  destruct n as [|n].
  - unfold compute_convergent in H. cbn [Nat.eqb] in H. fold v in H.
    unfold vec_at in H. destruct v as [|c0 v'] eqn:Ev; [discriminate|].
    cbn [nth_error bind ret] in H. injection H as <- <-.
    unfold used_coefficients, exact_convergent.
    cbn [seq map recurrence]. unfold cyclic_coefficient.
    rewrite Nat.Div0.mod_0_l. cbn [nth].
    inversion Hr; subst. split; symmetry; apply wrap_small; [assumption|].
    vm_compute. split; discriminate.
  - rewrite compute_convergent_S in H. fold v in H.
    unfold vec_at in H at 1 2.
    destruct v as [|c0 [|c1 v']] eqn:Ev; try discriminate.
    cbn [nth_error bind ret] in H. rewrite <- Ev in H.
    rewrite convergent_loop_states in H.
    assert (Hv : (0 < length v)%nat) by (rewrite Ev; cbn; lia).
    inversion Hr as [|? ? R0 Hr']; subst. inversion Hr' as [|? ? R1 _]; subst.
    destruct (convergent_states_recurrence v Hv n 2
                (signed_value c0) 1
                (Int64.wrap (signed_value c0 * signed_value c1 + 1))
                (signed_value c1)
                (signed_value c0) 1
                (signed_value c1 * signed_value c0 + 1)
                (signed_value c1 * 1 + 0))
      as (pn' & pd' & cn' & cd' & Es & Rn & Rd & Hrec);
      try reflexivity; try assumption; try apply wrap_in_range.
    { rewrite wrap_eqm_id.
      replace (signed_value c0 * signed_value c1 + 1)
        with (signed_value c1 * signed_value c0 + 1) by ring. reflexivity. }
    { replace (signed_value c1 * 1 + 0) with (signed_value c1) by ring.
      reflexivity. }
    rewrite Es in H. cbn [bind ret] in H. injection H as <- <-.
    unfold used_coefficients, exact_convergent.
    change (seq 0 (S (S n))) with (0%nat :: 1%nat :: seq 2 n).
    cbn [map recurrence].
    assert (E0 : cyclic_coefficient v 0 = signed_value c0).
    { unfold cyclic_coefficient. rewrite Nat.Div0.mod_0_l, Ev. reflexivity. }
    assert (E1 : cyclic_coefficient v 1 = signed_value c1).
    { unfold cyclic_coefficient. rewrite Nat.mod_small by (rewrite Ev; cbn; lia).
      rewrite Ev. reflexivity. }
    rewrite <- Ev, E0, E1.
    destruct (recurrence (map (cyclic_coefficient v) (seq 2 n)) _ _ _ _)
      as [[[PP' QP'] P'] Q'].
    destruct Hrec as [Hn' Hd'].
    split.
    + rewrite <- (wrap_small cn' Rn). now apply wrap_eqm.
    + rewrite <- (wrap_small cd' Rd). now apply wrap_eqm.
Qed.

(** X16.  [convergent(n)], whenever it returns, is the n-th convergent of the
    stored sequence repeated as a whole (index [i mod size()], so the
    non-periodic prefix is repeated too), computed in [long long]: the exact
    numerator and denominator reduced into 64 bits. *)
Theorem convergent_uses_cyclic_sequence n cf p q :
  Forall (fun c => Int64.in_range (signed_value c)) (coefficients_ cf) ->
  convergent n cf = ret (p, q) ->
  p = Int64.wrap (fst (exact_convergent (used_coefficients (coefficients_ cf) n))) /\
  q = Int64.wrap (snd (exact_convergent (used_coefficients (coefficients_ cf) n))).
Proof.
  intros Hr H. apply convergent_ret in H.
  pose proof (compute_convergent_recurrence n cf p q Hr H) as Hc.
  destruct (exact_convergent _) as [P Q]. exact Hc.
Qed.

Lemma convergent_uses_cyclic_sequence_witness :
  41 = Int64.wrap (fst (exact_convergent
         (used_coefficients (coefficients_ (create_periodic [1] [2])) 5))) /\
  30 = Int64.wrap (snd (exact_convergent
         (used_coefficients (coefficients_ (create_periodic [1] [2])) 5))).
Proof.
  apply (convergent_uses_cyclic_sequence 5 (create_periodic [1] [2]) 41 30).
  - repeat constructor; vm_compute; discriminate.
  - vm_compute. reflexivity.
Defined.

Lemma used_coefficients_prefix v n :
  (n < length v)%nat ->
  used_coefficients v n = firstn (S n) (map signed_value v).
Proof.
  intros Hn. unfold used_coefficients.
  apply nth_ext with (d := 0) (d' := 0).
  - rewrite length_map, length_seq, length_firstn, length_map. lia.
  - intros k Hk. rewrite length_map, length_seq in Hk.
    rewrite (nth_indep _ 0 (cyclic_coefficient v 0))
      by (rewrite length_map, length_seq; lia).
    rewrite map_nth, seq_nth by lia. cbn [Nat.add].
    unfold cyclic_coefficient. rewrite Nat.mod_small by lia.
    rewrite nth_firstn.
    destruct (Nat.ltb_spec k (S n)); [|lia].
    rewrite (nth_indep _ 0 (signed_value (Coefficient_of 0)))
      by (rewrite length_map; lia).
    now rewrite map_nth.
Qed.

Lemma convergent_truncated n cf :
  Forall (fun c => Int64.in_range (signed_value c)) (coefficients_ cf) ->
  Forall (fun a => 1 <= a) (tl (get_coefficients cf)) ->
  (n < size cf)%nat ->
  exists P Q,
    convergent n cf = ret (Int64.wrap P, Int64.wrap Q) /\
    1 <= Q /\ Z.gcd P Q = 1 /\
    (inject_Z P / inject_Z Q == cf_value (firstn (S n) (get_coefficients cf)))%Q.
Proof.
  unfold size, get_coefficients. intros Hr Hpos Hn.
  assert (Hret : exists pq, convergent n cf = ret pq).
  { unfold convergent.
    destruct (Nat.leb_spec (length (coefficients_ cf)) n); [lia|].
    cbn [andb]. apply compute_convergent_in_bounds. lia. }
  destruct Hret as [[p q] Hret].
  pose proof (compute_convergent_recurrence n cf p q Hr
                (convergent_ret _ _ _ Hret)) as Hc.
  rewrite used_coefficients_prefix in Hc by assumption.
  destruct (map signed_value (coefficients_ cf)) as [|a0 rest] eqn:Em.
  { apply (f_equal (@length Z)) in Em. rewrite length_map in Em.
    cbn [length] in Em. lia. }
  cbn [tl] in Hpos. cbn [firstn] in *.
  assert (Hpos' : Forall (fun a => 1 <= a) (firstn n rest)).
  { apply Forall_firstn_skipn. exact Hpos. }
  pose proof (exact_convergent_value a0 (firstn n rest) Hpos') as Hv.
  destruct (exact_convergent (a0 :: firstn n rest)) as [P Q].
  destruct Hc as [-> ->]. exists P, Q. split; [exact Hret|exact Hv].
Qed.

(** X17.  For an index inside the stored sequence whose coefficients after the
    first are at least 1, [convergent(n)] is the exact value of the first
    [n + 1] coefficients as a continued fraction: some integers [P / Q] in
    lowest terms with [Q >= 1], returned reduced into 64 bits (unchanged when
    they fit). *)
Theorem convergent_is_truncated_value n cf :
  Forall (fun c => Int64.in_range (signed_value c)) (coefficients_ cf) ->
  Forall (fun a => 1 <= a) (tl (get_coefficients cf)) ->
  (n < size cf)%nat ->
  exists P Q,
    convergent n cf = ret (Int64.wrap P, Int64.wrap Q) /\
    1 <= Q /\ Z.gcd P Q = 1 /\
    (inject_Z P / inject_Z Q == cf_value (firstn (S n) (get_coefficients cf)))%Q.
Proof. apply convergent_truncated. Qed.

Lemma convergent_is_truncated_value_witness :
  exists P Q,
    convergent 2 (ContinuedFraction_of_vector [3; 7; 16])
    = ret (Int64.wrap P, Int64.wrap Q) /\
    1 <= Q /\ Z.gcd P Q = 1 /\
    (inject_Z P / inject_Z Q
     == cf_value (firstn 3 (get_coefficients (ContinuedFraction_of_vector [3; 7; 16]%Z))))%Q.
Proof.
  apply (convergent_is_truncated_value 2 (ContinuedFraction_of_vector [3; 7; 16])).
  - repeat constructor; vm_compute; discriminate.
  - repeat constructor; vm_compute; discriminate.
  - vm_compute. lia.
Defined.

(** *** Back from a rational *)

Lemma euclid_spec_bounds n d qs :
  euclid_spec n d qs -> 0 <= n -> 0 < d ->
  Forall (fun q => 0 <= q <= Z.max n d) qs.
Proof.
  induction 1 as [n d Hd Hr | n d qs Hd Hr Hspec IH]; intros Hn Hd0.
  - constructor; [|constructor].
    pose proof (Z.quot_pos n d Hn Hd0).
    pose proof (Z.quot_rem' n d). nia.
  - pose proof (Z.rem_bound_pos n d Hn Hd0) as Hb.
    pose proof (Z.quot_pos n d Hn Hd0). pose proof (Z.quot_rem' n d).
    constructor; [nia|].
    specialize (IH ltac:(lia) ltac:(lia)).
    eapply Forall_impl; [|exact IH]. cbv beta. intros q Hq. lia.
Qed.

(** Integers in lowest terms with positive denominators and equal
    cross-products are equal to the reduced fraction. *)
Lemma lowest_terms_unique P Q n d :
  1 <= Q -> 0 < d -> Z.gcd P Q = 1 -> P * d = n * Q ->
  P = n / Z.gcd n d /\ Q = d / Z.gcd n d.
Proof.
  intros HQ Hd Hg Hx.
  set (g := Z.gcd n d).
  assert (Hg0 : 0 < g).
  { pose proof (Z.gcd_nonneg n d).
    destruct (Z.eq_dec g 0) as [E|]; [|unfold g in *; lia].
    apply Z.gcd_eq_0_r in E. lia. }
  destruct (Z.gcd_divide_l n d) as [n' Hn']. destruct (Z.gcd_divide_r n d) as [d' Hd'].
  fold g in Hn', Hd'.
  assert (Hd'0 : 0 < d') by nia.
  assert (Hg' : Z.gcd n' d' = 1).
  { pose proof (Z.gcd_mul_mono_r_nonneg n' d' g ltac:(lia)) as Hm.
    rewrite <- Hn', <- Hd' in Hm. fold g in Hm.
    pose proof (Z.gcd_nonneg n' d'). nia. }
  assert (Hx' : P * d' = n' * Q) by nia.
  assert (HQd : (Q | d')).
  { apply Z.gauss with P.
    - exists n'. lia.
    - now rewrite Z.gcd_comm. }
  assert (HdQ : (d' | Q)).
  { apply Z.gauss with n'.
    - exists P. lia.
    - now rewrite Z.gcd_comm. }
  assert (EQ : Q = d') by (apply Z.divide_antisym_nonneg; [lia|lia|assumption..]).
  subst Q. assert (EP : P = n') by nia. subst P.
  rewrite Hn', Hd', !Z.div_mul by lia. split; reflexivity.
Qed.

(** X18.  Rational round trip.  For a numerator [n >= 0] and a denominator
    [d > 0] whose Euclidean quotients are canonical as stored (no quotient 1
    strictly inside the sequence), the last convergent of
    [from_rational(n, d)] is the fraction [n / d] in lowest terms. *)
Theorem from_rational_last_convergent n d :
  0 <= n <= Int64.max_signed -> 0 < d <= Int64.max_signed ->
  canonical (map Coefficient_of (euclid_quotients n d)) = true ->
  exists cf,
    from_rational n d = ret cf /\
    get_coefficients cf = euclid_quotients n d /\
    convergent (size cf - 1) cf = ret (n / Z.gcd n d, d / Z.gcd n d).
Proof.
  intros Hn Hd Hcan.
  assert (Hov : euclid_no_overflow n d).
  { unfold euclid_no_overflow, Int64.in_range, Int64.min_signed, Int64.max_signed in *.
    lia. }
  assert (Hspec : euclid_spec n d (euclid_quotients n d)).
  { unfold euclid_quotients. apply euclid_loop_spec; [lia|assumption|lia]. }
  set (qs := euclid_quotients n d) in *.
  pose proof (euclid_spec_bounds n d qs Hspec ltac:(lia) ltac:(lia)) as Hb.
  assert (Hrange : Forall Int64.in_range qs).
  { eapply Forall_impl; [|exact Hb]. cbv beta. intros q Hq.
    unfold Int64.in_range, Int64.min_signed, Int64.max_signed in *. lia. }
  pose proof (euclid_spec_canonical n d qs Hspec ltac:(lia) ltac:(lia)) as Hsc.
  pose proof (euclid_spec_value n d qs Hspec) as Hval.
  exists (ContinuedFraction_of_vector qs).
  assert (Ecf : coefficients_ (ContinuedFraction_of_vector qs) = map Coefficient_of qs).
  { unfold ContinuedFraction_of_vector, normalize.
    cbn [invalidate_cache update_flags with_coefficients coefficients_].
    now apply normalize_coefficients_canonical. }
  assert (Eget : get_coefficients (ContinuedFraction_of_vector qs) = qs).
  { unfold get_coefficients. rewrite Ecf. now apply signed_value_of_map. }
  split; [|split; [exact Eget|]].
  { unfold from_rational. destruct (Z.eqb_spec d 0); [lia|reflexivity]. }
  destruct qs as [|q0 rest] eqn:Eqs; [contradiction|].
  destruct Hsc as [Hrest _].
  destruct (convergent_truncated (size (ContinuedFraction_of_vector (q0 :: rest)) - 1)
              (ContinuedFraction_of_vector (q0 :: rest)))
    as (P & Q & Hconv & HQ & Hgcd & HPQ).
  - rewrite Ecf. apply Forall_map.
    eapply Forall_impl; [|exact Hrange]. cbv beta. intros q Hq.
    change (Coefficient_of q) with (Coefficient_ctor q false false).
    now rewrite signed_value_ctor.
  - rewrite Eget. exact Hrest.
  - unfold size. rewrite Ecf. cbn [map length]. lia.
  - rewrite Hconv. rewrite Eget in HPQ.
    assert (Elen : S (size (ContinuedFraction_of_vector (q0 :: rest)) - 1)
                   = length (q0 :: rest)).
    { unfold size. rewrite Ecf, length_map. cbn [length]. lia. }
    rewrite Elen, firstn_all, Hval in HPQ.
    assert (Hx : P * d = n * Q).
    { assert (HQ0 : ~ (inject_Z Q == 0)%Q) by (apply inject_Z_nonzero; lia).
      assert (Hd0 : ~ (inject_Z d == 0)%Q) by (apply inject_Z_nonzero; lia).
      apply inject_Z_injective. rewrite !inject_Z_mult.
      transitivity (inject_Z P / inject_Z Q * (inject_Z Q * inject_Z d))%Q;
        [field; exact HQ0|].
      rewrite HPQ. field. exact Hd0. }
    destruct (lowest_terms_unique P Q n d HQ ltac:(lia) Hgcd Hx) as [EP EQ].
    assert (Hg0 : 0 < Z.gcd n d).
    { pose proof (Z.gcd_nonneg n d).
      destruct (Z.eq_dec (Z.gcd n d) 0) as [E|]; [|lia].
      apply Z.gcd_eq_0_r in E. lia. }
    assert (0 <= n / Z.gcd n d <= n).
    { split; [apply Z.div_pos; lia|].
      apply Z.div_le_upper_bound; [lia|nia]. }
    assert (0 <= d / Z.gcd n d <= d).
    { split; [apply Z.div_pos; lia|].
      apply Z.div_le_upper_bound; [lia|nia]. }
    rewrite EP, EQ.
    rewrite !wrap_small
      by (unfold Int64.in_range, Int64.min_signed, Int64.max_signed in *; lia).
    reflexivity.
Qed.

Lemma from_rational_last_convergent_witness :
  exists cf,
    from_rational 710 226 = ret cf /\
    get_coefficients cf = euclid_quotients 710 226 /\
    convergent (size cf - 1) cf = ret (710 / Z.gcd 710 226, 226 / Z.gcd 710 226).
Proof.
  apply (from_rational_last_convergent 710 226).
  - unfold Int64.max_signed. lia.
  - unfold Int64.max_signed. lia.
  - vm_compute. reflexivity.
Defined.

(* ================================================================== *)
(** ** What the reader produces *)

Local Open Scope string_scope.

Lemma extract_ll_range iss old :
  Int64.in_range old -> Int64.in_range (snd (extract_ll iss old)).
Proof.
  intros Hold. unfold extract_ll.
  destruct (failbit iss); [exact Hold|].
  destruct (skip_ws (buf iss)) as [|c s]; [exact Hold|].
  destruct (if Ascii.eqb c "-" then (true, s)
            else if Ascii.eqb c "+" then (false, s) else (false, String c s))
    as [neg s1].
  destruct (read_digits s1 0 false) as [[mag seen] rest].
  destruct (negb seen); [vm_compute; split; discriminate|].
  destruct (Z.ltb_spec (if neg then (- mag)%Z else mag) Int64.min_signed);
    [vm_compute; split; discriminate|].
  destruct (Z.ltb_spec Int64.max_signed (if neg then (- mag)%Z else mag));
    [vm_compute; split; discriminate|].
  cbn [snd]. split; assumption.
Qed.

(** Whatever the text, the loop only appends plain coefficients built from
    [long long] values. *)
Lemma read_rest_shape fuel : forall iss coeff acc,
  Int64.in_range coeff ->
  exists l, Forall Int64.in_range l /\
            read_rest fuel iss coeff acc = (acc ++ map Coefficient_of l)%list.
Proof.
  induction fuel as [|fuel IH]; intros iss coeff acc Hc.
  - exists []. split; [constructor|]. cbn. now rewrite app_nil_r.
  - rewrite read_rest_S.
    destruct (extract_char iss) as [iss1 [ch|]].
    2: { exists []. split; [constructor|]. cbn. now rewrite app_nil_r. }
    destruct (Ascii.eqb ch ";").
    2: { exists []. split; [constructor|]. cbn. now rewrite app_nil_r. }
    pose proof (extract_ll_range iss1 coeff Hc) as Hr.
    destruct (extract_ll iss1 coeff) as [iss2 coeff']. cbn [snd] in Hr.
    destruct (IH iss2 coeff' (acc ++ [Coefficient_of coeff'])%list Hr)
      as (l & Hl & E).
    exists (coeff' :: l). split; [now constructor|].
    rewrite E, <- app_assoc. reflexivity.
Qed.

Lemma parse_string_success str cf cf' :
  parse_string str cf = (cf', None) ->
  exists l, Forall Int64.in_range l /\ l <> [] /\
            cf' = normalize (with_coefficients (map Coefficient_of l)
                                               (with_coefficients [] cf)).
Proof.
  unfold parse_string.
  destruct (regex_match str) as [content|]; [|discriminate].
  pose proof (extract_ll_range (stream_ok content) 0
                ltac:(vm_compute; split; discriminate)) as Hr.
  destruct (extract_ll (stream_ok content) 0) as [iss coeff]. cbn [snd] in Hr.
  destruct (failbit iss); [discriminate|].
  destruct (read_rest_shape (S (String.length content)) iss coeff
              [Coefficient_of coeff] Hr) as (l & Hl & E).
  rewrite E. intros [= <-].
  exists (coeff :: l). split; [now constructor|]. split; [discriminate|].
  reflexivity.
Qed.

(** X19.  A successful [parse_string] leaves at least one coefficient, no periodic
    marker ([is_periodic()] false, [is_finite()] true), an empty cache and
    the class invariant, whatever the text and whatever the instance held
    before. *)
Theorem parse_string_result_is_finite str cf cf' :
  parse_string str cf = (cf', None) ->
  (1 <= size cf')%nat /\
  is_periodic cf' = false /\ is_finite cf' = true /\
  value_cached_ cf' = false /\
  ContinuedFraction_wf cf'.
Proof.
  intros H. destruct (parse_string_success str cf cf' H) as (l & Hl & Hne & ->).
  set (c := with_coefficients (map Coefficient_of l) (with_coefficients [] cf)).
  assert (Hm : count_markers (coefficients_ c) = 0%nat)
    by apply count_markers_unmarked.
  destruct (normalize_unmarked_finite c Hm) as [Hp Hf].
  split; [|split; [exact Hp|split; [exact Hf|split; [reflexivity|]]]].
  - destruct (normalize_coefficients_length (coefficients_ c)) as [_ Hz].
    unfold size. change (coefficients_ (normalize c))
      with (normalize_coefficients (coefficients_ c)).
    destruct (length (normalize_coefficients (coefficients_ c))) eqn:E; [|lia].
    apply proj1 in Hz. specialize (Hz eq_refl).
    cbn [c with_coefficients coefficients_] in Hz.
    rewrite length_map in Hz. destruct l; [congruence|discriminate].
  - apply normalize_wf. cbn [c with_coefficients coefficients_].
    apply Forall_map. eapply Forall_impl; [|exact Hl].
    intros v Hv. now apply Coefficient_ctor_wf.
Qed.

Lemma parse_string_result_is_finite_witness :
  let cf' := fst (parse_string "[1; (2)]" (create_periodic [1] [2])) in
  (1 <= size cf')%nat /\
  is_periodic cf' = false /\ is_finite cf' = true /\
  value_cached_ cf' = false /\
  ContinuedFraction_wf cf'.
Proof.
  apply (parse_string_result_is_finite "[1; (2)]" (create_periodic [1] [2])).
  vm_compute. reflexivity.
Defined.

(** *** Reading what [to_string] wrote *)

Lemma print_tail_app a b : print_tail (a ++ b) = print_tail a ++ print_tail b.
Proof.
  induction a as [|c a IH]; [reflexivity|].
  cbn [app print_tail]. now rewrite IH, !string_app_assoc.
Qed.

Lemma starts_nondigit_print_tail tl sfx :
  starts_nondigit sfx -> starts_nondigit (print_tail tl ++ sfx).
Proof.
  intros H. destruct tl as [|c tl]; [exact H|].
  cbn [print_tail]. unfold separator.
  destruct (is_periodic_marker c); reflexivity.
Qed.

Lemma last_cons_default {A} (l : list A) : forall a d, last (a :: l) d = last l a.
Proof.
  induction l as [|b l IH]; intros a d; [reflexivity|].
  change (last (a :: b :: l) d) with (last (b :: l) d).
  now rewrite !IH.
Qed.

(** The loop reads back a plain tail and goes on with what follows it. *)
Lemma read_rest_print_tail_then tl : forall fuel coeff acc sfx,
  Forall Coefficient_wf tl -> has_marker tl = false ->
  starts_nondigit sfx ->
  read_rest (length tl + fuel) (stream_ok (print_tail tl ++ sfx)) coeff acc
  = read_rest fuel (stream_ok sfx) (last (map signed_value tl) coeff)
              (acc ++ tl)%list.
Proof.
  induction tl as [|c tl IH]; intros fuel coeff acc sfx Hwf Hm Hs.
  - cbn. now rewrite app_nil_r.
  - inversion Hwf as [|? ? Hc Htl]; subst.
    cbn [has_marker existsb] in Hm. apply orb_false_iff in Hm as [Hmc Hmtl].
    cbn [length Nat.add print_tail]. rewrite read_rest_S.
    unfold separator. rewrite Hmc. rewrite !string_app_assoc.
    cbn [String.append].
    unfold extract_char. cbn [failbit buf stream_ok skip_ws].
    change (isspace ";") with false. cbv iota.
    change (Ascii.eqb ";" ";") with true. cbv iota.
    rewrite extract_ll_space, extract_ll_print;
      [|apply Hc|now apply starts_nondigit_print_tail].
    rewrite Coefficient_of_signed_value by assumption.
    rewrite IH by assumption.
    cbn [map]. rewrite last_cons_default, <- app_assoc. reflexivity.
Qed.

(** At the opening parenthesis the integer extraction fails: a zero is
    stored and the loop ends. *)
Lemma read_rest_at_parenthesis fuel Y coeff acc :
  read_rest (S fuel) (stream_ok ("; (" ++ Y)) coeff acc
  = (acc ++ [Coefficient_of 0])%list.
Proof. destruct fuel; reflexivity. Qed.

(** At a character that is neither white space nor a semicolon the loop
    ends. *)
Lemma read_rest_at_other fuel ch junk coeff acc :
  isspace ch = false -> Ascii.eqb ch ";" = false ->
  read_rest fuel (stream_ok (String ch junk)) coeff acc = acc.
Proof.
  intros Hs Hc. destruct fuel; [reflexivity|].
  rewrite read_rest_S. unfold extract_char.
  cbn [failbit buf stream_ok skip_ws]. rewrite Hs, Hc. reflexivity.
Qed.

Lemma to_string_form cf c0 tl :
  coefficients_ cf = c0 :: tl ->
  to_string cf
  = "[" ++ (print_ll (signed_value c0) ++ print_tail tl
            ++ (if is_periodic_ cf then ")" else "")) ++ "]".
Proof.
  intros E. unfold to_string. rewrite E.
  rewrite !string_app_assoc. destruct (is_periodic_ cf); reflexivity.
Qed.

Lemma regex_match_printed z rest :
  no_brackets rest = true ->
  regex_match ("[" ++ (print_ll z ++ rest) ++ "]") = Some (print_ll z ++ rest).
Proof.
  intros H. apply regex_match_brackets.
  - rewrite string_length_app. pose proof (print_ll_nonempty z). lia.
  - now rewrite no_brackets_app, print_ll_no_brackets.
Qed.

Lemma parse_string_finite str cf cf' :
  parse_string str cf = (cf', None) ->
  (1 <= size cf')%nat /\ is_periodic cf' = false /\ is_finite cf' = true.
Proof.
  intros H. destruct (parse_string_success str cf cf' H) as (l & Hl & Hne & ->).
  set (c := with_coefficients (map Coefficient_of l) (with_coefficients [] cf)).
  assert (Hm : count_markers (coefficients_ c) = 0%nat)
    by apply count_markers_unmarked.
  destruct (normalize_unmarked_finite c Hm) as [Hp Hf].
  split; [|split; assumption].
  destruct (normalize_coefficients_length (coefficients_ c)) as [_ Hz].
  unfold size. change (coefficients_ (normalize c))
    with (normalize_coefficients (coefficients_ c)).
  destruct (length (normalize_coefficients (coefficients_ c))) eqn:E; [|lia].
  apply proj1 in Hz. specialize (Hz eq_refl).
  cbn [c with_coefficients coefficients_] in Hz.
  rewrite length_map in Hz. destruct l; [congruence|discriminate].
Qed.

(** X20.  Whatever fraction it is written from, finite or periodic, empty or
    not, the text of [to_string] is always accepted by [parse_string]; what
    is read back is never periodic. *)
Theorem to_string_is_always_readable cf cf0 :
  Forall (fun c => Int64.in_range (signed_value c)) (coefficients_ cf) ->
  exists cf',
    parse_string (to_string cf) cf0 = (cf', None) /\
    (1 <= size cf')%nat /\ is_periodic cf' = false /\ is_finite cf' = true.
Proof.
  intros Hr.
  assert (H : exists cf', parse_string (to_string cf) cf0 = (cf', None)).
  { destruct (coefficients_ cf) as [|c0 tl] eqn:E.
    - unfold to_string. rewrite E. eexists. vm_compute. reflexivity.
    - inversion Hr as [|? ? R0 _]; subst.
      rewrite (to_string_form cf c0 tl E).
      unfold parse_string. rewrite regex_match_printed.
      2: { rewrite no_brackets_app, print_tail_no_brackets.
           destruct (is_periodic_ cf); reflexivity. }
      rewrite extract_ll_print; [cbn [failbit stream_ok]; eexists; reflexivity
                                |exact R0|].
      apply starts_nondigit_print_tail. destruct (is_periodic_ cf); reflexivity. }
  destruct H as [cf' H]. exists cf'. split; [exact H|].
  now apply (parse_string_finite (to_string cf) cf0).
Qed.

Lemma to_string_is_always_readable_witness :
  exists cf',
    parse_string (to_string (create_periodic [1] [2; 3])) ContinuedFraction_raw
    = (cf', None) /\
    (1 <= size cf')%nat /\ is_periodic cf' = false /\ is_finite cf' = true.
Proof.
  apply (to_string_is_always_readable (create_periodic [1] [2; 3])
           ContinuedFraction_raw).
  repeat constructor; vm_compute; discriminate.
Defined.

Lemma remove_zeros_trailing_zero c0 pre :
  remove_zeros ((c0 :: pre) ++ [Coefficient_of 0]) = remove_zeros (c0 :: pre).
Proof.
  unfold remove_zeros. cbn [app length]. rewrite length_app. cbn [length].
  destruct (Nat.ltb_spec 1 (S (length pre + 1))); [|lia].
  rewrite filter_app. cbn [filter Coefficient_of Coefficient_ctor value].
  change (negb (Int64.wrap (Z.abs 0) =? 0)%Z) with false. cbv iota.
  rewrite app_nil_r.
  destruct (Nat.ltb_spec 1 (S (length pre))); [reflexivity|].
  destruct pre; [reflexivity|cbn [length] in *; lia].
Qed.

(** X21.  The periodic part is not read back.  When the marker sits at an index
    above 0, the text of [to_string] reads back as the normalization of the
    coefficients in front of the marker alone: the marked coefficient and
    everything after it are lost. *)
Theorem periodic_tail_is_not_read_back cf c0 pre m post :
  coefficients_ cf = c0 :: pre ++ m :: post ->
  Forall Coefficient_wf (c0 :: pre) ->
  has_marker (c0 :: pre) = false ->
  is_periodic_marker m = true ->
  exists cf',
    ContinuedFraction_of_string (to_string cf) = ret cf' /\
    coefficients_ cf' = normalize_coefficients (c0 :: pre) /\
    is_periodic cf' = false.
Proof.
  intros E Hwf Hm Hmark.
  inversion Hwf as [|? ? Hc0 Hpre]; subst.
  cbn [has_marker existsb] in Hm. apply orb_false_iff in Hm as [Hm0 Hmpre].
  set (Y := print_ll (signed_value m) ++ print_tail post
            ++ (if is_periodic_ cf then ")" else "")).
  assert (Hstr : to_string cf
                 = "[" ++ (print_ll (signed_value c0)
                           ++ (print_tail pre ++ "; (" ++ Y)) ++ "]").
  { rewrite (to_string_form cf c0 (pre ++ m :: post) E).
    rewrite print_tail_app. cbn [print_tail]. unfold separator. rewrite Hmark.
    unfold Y. now rewrite !string_app_assoc. }
  assert (Hnb : no_brackets (print_tail pre ++ "; (" ++ Y) = true).
  { unfold Y. rewrite !no_brackets_app, !print_tail_no_brackets,
      print_ll_no_brackets. destruct (is_periodic_ cf); reflexivity. }
  set (content := print_ll (signed_value c0) ++ (print_tail pre ++ "; (" ++ Y)).
  assert (Hparse : parse_string (to_string cf) ContinuedFraction_raw
                   = (normalize (with_coefficients
                        ((c0 :: pre) ++ [Coefficient_of 0])
                        (with_coefficients [] ContinuedFraction_raw)), None)).
  { unfold parse_string. rewrite Hstr, regex_match_printed by exact Hnb.
    rewrite extract_ll_print;
      [|apply Hc0|now apply starts_nondigit_print_tail].
    cbn [failbit stream_ok].
    rewrite Coefficient_of_signed_value by assumption.
    fold content.
    assert (Hlen : (length pre + 2 <= S (String.length content))%nat).
    { unfold content. rewrite !string_length_app. cbn [String.length].
      pose proof (print_tail_length pre). lia. }
    replace (S (String.length content))
      with (length pre + S (S (String.length content) - length pre - 1))%nat
      by lia.
    rewrite read_rest_print_tail_then; [|assumption|exact Hmpre|reflexivity].
    rewrite read_rest_at_parenthesis. reflexivity. }
  eexists. split; [|split].
  - unfold ContinuedFraction_of_string. rewrite Hparse. reflexivity.
  - cbn [normalize invalidate_cache update_flags with_coefficients coefficients_].
    unfold normalize_coefficients. now rewrite remove_zeros_trailing_zero.
  - apply normalize_unmarked_finite.
    cbn [with_coefficients coefficients_].
    rewrite count_markers_app. change (count_markers [Coefficient_of 0]) with 0%nat.
    rewrite Nat.add_0_r. apply count_markers_zero.
    unfold has_marker. cbn [existsb]. rewrite Hm0. exact Hmpre.
Qed.

Lemma periodic_tail_is_not_read_back_witness :
  exists cf',
    ContinuedFraction_of_string (to_string (create_periodic [4; 2] [3; 5]))
    = ret cf' /\
    coefficients_ cf' = normalize_coefficients (map Coefficient_of [4; 2]) /\
    is_periodic cf' = false.
Proof.
  apply (periodic_tail_is_not_read_back (create_periodic [4; 2] [3; 5])
           (Coefficient_of 4) [Coefficient_of 2]
           (Coefficient_ctor 3 false true) [Coefficient_of 5]).
  - vm_compute. reflexivity.
  - repeat constructor; vm_compute; discriminate.
  - vm_compute. reflexivity.
  - reflexivity.
Defined.

(** X22.  The reader stops at the first character that is neither white space
    nor a semicolon (a comma, a parenthesis, a letter): whatever text follows
    a well-formed list of integers is ignored, without an error. *)
Theorem text_after_the_integers_is_ignored c0 tl ch junk :
  Forall Coefficient_wf (c0 :: tl) ->
  has_marker (c0 :: tl) = false ->
  isspace ch = false -> Ascii.eqb ch ";" = false -> is_digit ch = false ->
  no_brackets (String ch junk) = true ->
  exists cf',
    ContinuedFraction_of_string
      ("[" ++ (print_ll (signed_value c0)
               ++ (print_tail tl ++ String ch junk)) ++ "]") = ret cf' /\
    coefficients_ cf' = normalize_coefficients (c0 :: tl).
Proof.
  intros Hwf Hm Hs Hsemi Hd Hnb.
  inversion Hwf as [|? ? Hc0 Htl]; subst.
  cbn [has_marker existsb] in Hm. apply orb_false_iff in Hm as [Hm0 Hmtl].
  assert (Hnd : starts_nondigit (String ch junk)).
  { unfold starts_nondigit. unfold is_digit in Hd.
    destruct (digit_of ch); [discriminate|reflexivity]. }
  eexists. split.
  - unfold ContinuedFraction_of_string, parse_string.
    rewrite regex_match_printed
      by (now rewrite no_brackets_app, print_tail_no_brackets).
    rewrite extract_ll_print;
      [|apply Hc0|now apply starts_nondigit_print_tail].
    cbn [failbit stream_ok].
    rewrite Coefficient_of_signed_value by assumption.
    set (content := print_ll (signed_value c0) ++ (print_tail tl ++ String ch junk)).
    assert (Hlen : (length tl <= S (String.length content))%nat).
    { unfold content. rewrite !string_length_app.
      pose proof (print_tail_length tl). lia. }
    replace (S (String.length content))
      with (length tl + (S (String.length content) - length tl))%nat by lia.
    rewrite read_rest_print_tail_then by assumption.
    rewrite read_rest_at_other by assumption. reflexivity.
  - reflexivity.
Qed.

Lemma text_after_the_integers_is_ignored_witness :
  exists cf',
    ContinuedFraction_of_string
      ("[" ++ (print_ll (signed_value (Coefficient_of 1))
               ++ (print_tail [Coefficient_of 2] ++ String "," " 3")) ++ "]")
    = ret cf' /\
    coefficients_ cf' = normalize_coefficients (map Coefficient_of [1; 2]).
Proof.
  apply (text_after_the_integers_is_ignored
           (Coefficient_of 1) [Coefficient_of 2] "," " 3").
  - repeat constructor; vm_compute; discriminate.
  - reflexivity.
  - reflexivity.
  - reflexivity.
  - reflexivity.
  - reflexivity.
Defined.

Local Close Scope string_scope.

(* ================================================================== *)
(** ** The cached evaluator *)

(** A second call of [to_double] returns the cached value and leaves the
    instance as the first call left it. *)
Lemma to_double_cached cf :
  to_double (snd (to_double cf)) = (fst (to_double cf), snd (to_double cf)).
Proof.
  unfold to_double.
  destruct (value_cached_ cf) eqn:E.
  - cbn [fst snd]. rewrite E. reflexivity.
  - destruct (coefficients_ cf); reflexivity.
Qed.

Lemma to_double_keeps cf :
  coefficients_ (snd (to_double cf)) = coefficients_ cf /\
  is_finite_ (snd (to_double cf)) = is_finite_ cf /\
  is_periodic_ (snd (to_double cf)) = is_periodic_ cf /\
  value_cached_ (snd (to_double cf)) = true /\
  cached_value_ (snd (to_double cf)) = fst (to_double cf).
Proof.
  unfold to_double.
  destruct (value_cached_ cf) eqn:E.
  - cbn [fst snd]. auto.
  - destruct (coefficients_ cf) eqn:Ec; cbn [fst snd set_cache coefficients_
      is_finite_ is_periodic_ value_cached_ cached_value_]; auto.
Qed.

Lemma fold_value_single c : fold_value [c] = double_of_ll (signed_value c).
Proof. reflexivity. Qed.

(** X23.  [to_double] is memoised soundly.  Whatever the state of the cache,
    the call leaves the coefficients and both flags untouched, marks the
    cache valid with the value it returns, and a second call on the
    resulting instance returns the same value and changes nothing. *)
Theorem to_double_is_memoised cf :
  let x := fst (to_double cf) in
  let cf' := snd (to_double cf) in
  coefficients_ cf' = coefficients_ cf /\
  is_finite cf' = is_finite cf /\
  is_periodic cf' = is_periodic cf /\
  value_cached_ cf' = true /\
  cached_value_ cf' = x /\
  to_double cf' = (x, cf').
Proof.
  cbv zeta. unfold is_finite, is_periodic.
  pose proof (to_double_keeps cf) as (H1 & H2 & H3 & H4 & H5).
  pose proof (to_double_cached cf) as H6.
  repeat (split; [assumption|]). assumption.
Qed.

(** The constructors and the evaluator keep the cache coherent. *)
Lemma normalize_coherent cf : cache_coherent (normalize cf).
Proof. unfold cache_coherent, normalize. cbn. discriminate. Qed.

Lemma ContinuedFraction_of_int_coherent v :
  Int64.in_range v -> cache_coherent (ContinuedFraction_of_int v).
Proof.
  intros Hv _. unfold ContinuedFraction_of_int.
  cbn [cached_value_ coefficients_].
  rewrite fold_value_single. unfold Coefficient_of.
  now rewrite signed_value_ctor.
Qed.

Lemma to_double_coherent cf :
  cache_coherent cf -> fst (to_double cf) = fold_value (coefficients_ cf).
Proof.
  intros H. unfold to_double. destruct (value_cached_ cf) eqn:E.
  - cbn [fst]. now apply H.
  - destruct (coefficients_ cf); reflexivity.
Qed.

Lemma to_double_keeps_coherent cf :
  cache_coherent cf -> cache_coherent (snd (to_double cf)).
Proof.
  intros H _.
  pose proof (to_double_keeps cf) as (H1 & _ & _ & _ & H5).
  rewrite H5, H1. now apply to_double_coherent.
Qed.

(** The evaluator reads the signed values only. *)
Lemma fold_value_signed v :
  fold_value v =
  fold_left
    (fun value z =>
       if PrimFloat.eqb value PrimFloat.zero
       then double_of_ll z
       else PrimFloat.add (double_of_ll z) (PrimFloat.div PrimFloat.one value))
    (rev (map signed_value v)) PrimFloat.zero.
Proof.
  unfold fold_value. rewrite <- map_rev.
  generalize (rev v) at 1 2. intros l. generalize PrimFloat.zero at 2 4.
  induction l as [|c l IH]; intros x; [reflexivity|].
  cbn [map fold_left]. apply IH.
Qed.

(** No [double] is smaller than itself. *)
Lemma ltb_irrefl x : PrimFloat.ltb x x = false.
Proof.
  rewrite FloatAxioms.ltb_spec. unfold SFltb, SFcompare.
  destruct (Prim2SF x) as [s|s| |s m e]; try reflexivity.
  - destruct s; reflexivity.
  - rewrite Z.compare_refl, Pos.compare_cont_refl. destruct s; reflexivity.
Qed.

(** X24.  The periodic marker is invisible to the evaluator.  Two fractions
    with the same coefficient values (markers aside) and coherent caches
    evaluate to the same [double]; hence neither [<] nor [>] holds between
    them, and [<=] and [>=] agree, also when [==] tells them apart. *)
Theorem evaluator_ignores_periodic_marker a b :
  cache_coherent a -> cache_coherent b ->
  get_coefficients a = get_coefficients b ->
  fst (to_double a) = fst (to_double b) /\
  operator_lt a b = false /\ operator_gt a b = false /\
  operator_le a b = operator_ge a b.
Proof.
  intros Ha Hb Hc.
  assert (E : fst (to_double a) = fst (to_double b)).
  { rewrite !to_double_coherent by assumption.
    rewrite !fold_value_signed. unfold get_coefficients in Hc. now rewrite Hc. }
  unfold operator_lt, operator_gt, operator_le, operator_ge. rewrite E.
  rewrite ltb_irrefl. auto.
Qed.

Lemma evaluator_ignores_periodic_marker_witness :
  let a := create_periodic [1] [2] in
  let b := ContinuedFraction_of_vector [1; 2] in
  operator_eq a b = false /\
  fst (to_double a) = fst (to_double b) /\
  operator_lt a b = false /\ operator_gt a b = false /\
  operator_le a b = operator_ge a b.
Proof.
  split; [reflexivity|].
  apply (evaluator_ignores_periodic_marker
           (create_periodic [1] [2]) (ContinuedFraction_of_vector [1; 2])).
  - intros H. vm_compute in H. discriminate H.
  - intros H. vm_compute in H. discriminate H.
  - reflexivity.
Defined.

(* ================================================================== *)
(** ** Conversion from a [double] *)

Lemma from_double_loop_S count value coeffs :
  from_double_loop (S count) value coeffs =
  match floor_ll value with
  | None => None
  | Some integer_part =>
      if PrimFloat.ltb
           (PrimFloat.abs (PrimFloat.sub value (double_of_ll integer_part)))
           tolerance_1e12
      then Some (coeffs ++ [integer_part])
      else from_double_loop count
             (PrimFloat.div PrimFloat.one
                (PrimFloat.sub value (double_of_ll integer_part)))
             (coeffs ++ [integer_part])
  end.
Proof. reflexivity. Qed.

Lemma floor_ll_in_range x z : floor_ll x = Some z -> Int64.in_range z.
Proof.
  unfold floor_ll, Int64.in_range.
  destruct (Prim2SF x) as [s| | |s m e]; try discriminate.
  - intros H. injection H as <-.
    unfold Int64.min_signed, Int64.max_signed. lia.
  - cbv zeta.
    set (fl := if 0 <=? e then _ else _).
    destruct (Z.leb_spec Int64.min_signed fl) as [H1|H1];
      destruct (Z.leb_spec fl Int64.max_signed) as [H2|H2];
      cbn [andb]; try discriminate.
    intros H. injection H as <-. lia.
Qed.

Lemma from_double_loop_shape count : forall value acc l,
  from_double_loop count value acc = Some l ->
  (length acc <= length l <= length acc + count)%nat /\
  (0 < count -> length acc < length l)%nat /\
  (Forall Int64.in_range acc -> Forall Int64.in_range l).
Proof.
  induction count as [|count IH]; intros value acc l H.
  - cbn in H. injection H as <-. repeat split; [lia|lia|lia|auto].
  - rewrite from_double_loop_S in H.
    destruct (floor_ll value) as [z|] eqn:Ez; [|discriminate].
    apply floor_ll_in_range in Ez.
    assert (Hlen : length (acc ++ [z]) = S (length acc)).
    { rewrite length_app. cbn [length]. lia. }
    assert (Hr : Forall Int64.in_range acc -> Forall Int64.in_range (acc ++ [z])).
    { intros Ha. apply Forall_app. split; [assumption|]. now constructor. }
    destruct (PrimFloat.ltb _ _).
    + injection H as <-. rewrite Hlen. repeat split; [lia|lia|lia|exact Hr].
    + apply IH in H as (H1 & H2 & H3). rewrite Hlen in *.
      split; [lia|]. split; [lia|auto].
Qed.

Lemma from_double_shape value max_terms cf :
  from_double value max_terms = Some cf ->
  (size cf <= max_terms)%nat /\
  (size cf = 0%nat <-> max_terms = 0%nat) /\
  is_finite cf = true /\
  is_periodic cf = false /\
  ContinuedFraction_wf cf.
Proof.
  unfold from_double.
  destruct (from_double_loop max_terms value []) as [l|] eqn:E; [|discriminate].
  intros H. injection H as <-.
  apply from_double_loop_shape in E as (H1 & H2 & H3). cbn [length] in *.
  pose proof (normalize_coefficients_length (map Coefficient_of l)) as [L1 L2].
  rewrite length_map in L1, L2.
  assert (Es : size (ContinuedFraction_of_vector l) =
               length (normalize_coefficients (map Coefficient_of l)))
    by reflexivity.
  split; [lia|]. split.
  { rewrite Es, L2. split; [|intros ->; lia].
    intros E0. destruct max_terms; [reflexivity|]. lia. }
  pose proof (normalize_unmarked_finite
    {| coefficients_ := map Coefficient_of l; is_finite_ := true;
       is_periodic_ := false; cached_value_ := PrimFloat.zero;
       value_cached_ := false |} (count_markers_unmarked l)) as [P1 P2].
  split; [exact P2|]. split; [exact P1|].
  apply ContinuedFraction_of_vector_wf. apply H3. constructor.
Qed.

(** X25.  [from_double] keeps its promise on [max_terms].  Whenever the
    conversions of the loop are defined, the result has at most [max_terms]
    coefficients, is finite and never periodic, satisfies the class
    invariant, and is the empty fraction (no coefficient at all) exactly
    when [max_terms] is 0. *)
Theorem from_double_respects_max_terms value max_terms cf :
  from_double value max_terms = Some cf ->
  (size cf <= max_terms)%nat /\
  (size cf = 0%nat <-> max_terms = 0%nat) /\
  is_finite cf = true /\
  is_periodic cf = false /\
  ContinuedFraction_wf cf.
Proof. apply from_double_shape. Qed.

Lemma from_double_respects_max_terms_witness :
  let cf := ContinuedFraction_of_vector [2; 2] in
  (size cf <= 20)%nat /\
  (size cf = 0%nat <-> 20%nat = 0%nat) /\
  is_finite cf = true /\
  is_periodic cf = false /\
  ContinuedFraction_wf cf.
Proof.
  apply (from_double_respects_max_terms 0x1.4p+1%float 20).
  vm_compute. reflexivity.
Defined.

(* ================================================================== *)
(** ** Arithmetic *)

(** X26.  The four arithmetic operators go through [double] and back, so
    whatever the operands are (periodic ones included) a result has between
    1 and 20 coefficients, is finite and is never periodic. *)
Theorem arithmetic_results_are_short_and_finite a b r :
  operator_add a b = Some r \/ operator_sub a b = Some r \/
  operator_mul a b = Some r \/ operator_div a b = ret (Some r) ->
  (1 <= size r <= 20)%nat /\ is_finite r = true /\ is_periodic r = false /\
  ContinuedFraction_wf r.
Proof.
  intros H.
  assert (E : exists x, from_double x default_max_terms = Some r).
  { destruct H as [H|[H|[H|H]]].
    - eexists; exact H.
    - eexists; exact H.
    - eexists; exact H.
    - unfold operator_div in H.
      destruct (PrimFloat.ltb _ _); [discriminate|].
      unfold ret in H. injection H as H. eexists; exact H. }
  destruct E as [x E]. apply from_double_shape in E as (H1 & H2 & H3 & H4 & H5).
  unfold default_max_terms in *.
  split; [|auto]. split; [|assumption].
  destruct (size r); [|lia]. destruct H2 as [H2 _]. specialize (H2 eq_refl). lia.
Qed.

Lemma arithmetic_results_are_short_and_finite_witness :
  let r := ContinuedFraction_of_vector [2; 2] in
  (1 <= size r <= 20)%nat /\ is_finite r = true /\ is_periodic r = false /\
  ContinuedFraction_wf r.
Proof.
  apply (arithmetic_results_are_short_and_finite
           (ContinuedFraction_of_vector [5]) (ContinuedFraction_of_int 2)).
  right. right. right. vm_compute. reflexivity.
Defined.

(** X27.  Dividing by a fraction that is the integer zero throws
    [runtime_error], whatever the dividend: the divisor holds the single
    coefficient 0 and a coherent cache (as the default constructor,
    [ContinuedFraction(0)] and [clear] leave it). *)
Theorem division_by_zero_throws a b :
  get_coefficients b = [0] -> cache_coherent b ->
  operator_div a b = throw runtime_error.
Proof.
  intros Hc Hcache. unfold operator_div.
  rewrite to_double_coherent by assumption.
  unfold get_coefficients in Hc.
  destruct (coefficients_ b) as [|c [|c' v]]; try discriminate.
  cbn [map] in Hc. rewrite fold_value_single.
  injection Hc as ->. reflexivity.
Qed.

Lemma division_by_zero_throws_witness :
  operator_div (create_periodic [1] [2]) (ContinuedFraction_of_int 0) =
  throw runtime_error.
Proof.
  apply (division_by_zero_throws (create_periodic [1] [2])
                                 (ContinuedFraction_of_int 0)).
  - reflexivity.
  - intros _. reflexivity.
Defined.

(* ================================================================== *)
(** ** The greatest common divisor *)

Lemma gcd_loop_S fuel a b :
  gcd_loop (S fuel) a b =
  if b =? 0 then a else gcd_loop fuel b (Int64.rem a b).
Proof. reflexivity. Qed.

(** The loop computes the greatest common divisor up to sign once its fuel
    exceeds [|b|]. *)
Lemma gcd_loop_spec fuel : forall a b,
  Z.abs b < Z.of_nat fuel -> Z.abs (gcd_loop fuel a b) = Z.gcd a b.
Proof.
  induction fuel as [|fuel IH]; intros a b H; [lia|].
  rewrite gcd_loop_S.
  destruct (Z.eqb_spec b 0) as [->|Hb]; [now rewrite Z.gcd_0_r|].
  rewrite IH.
  - unfold Int64.rem. rewrite (Z.gcd_comm b), Z.gcd_rem by assumption.
    apply Z.gcd_comm.
  - unfold Int64.rem. pose proof (Z.rem_bound_abs a b Hb). lia.
Qed.

(** [|b| + 1] evaluations of [b != 0] see the loop of [gcd] leave: more fuel
    does not change its result. *)
Lemma gcd_loop_fuel_S fuel : forall a b,
  Z.abs b < Z.of_nat fuel -> gcd_loop (S fuel) a b = gcd_loop fuel a b.
Proof.
  induction fuel as [|fuel IH]; intros a b H; [lia|].
  rewrite (gcd_loop_S (S fuel) a b), (gcd_loop_S fuel a b).
  destruct (Z.eqb_spec b 0) as [|Hb]; [reflexivity|].
  apply IH. unfold Int64.rem. pose proof (Z.rem_bound_abs a b Hb). lia.
Qed.

Lemma gcd_loop_fuel k : forall a b,
  gcd_loop (S (Z.abs_nat b) + k) a b = gcd_loop (S (Z.abs_nat b)) a b.
Proof.
  induction k as [|k IH]; intros a b.
  - now rewrite Nat.add_0_r.
  - rewrite Nat.add_succ_r, gcd_loop_fuel_S by lia. apply IH.
Qed.

Lemma gcd_bound a b m :
  Z.abs a <= m -> Z.abs b <= m -> 0 <= Z.gcd a b <= m.
Proof.
  intros Ha Hb. pose proof (Z.gcd_nonneg a b) as H0. split; [assumption|].
  destruct (Z.eq_dec a 0) as [->|Hna].
  - rewrite Z.gcd_0_l. assumption.
  - pose proof (Z.gcd_divide_l a b) as Hd.
    apply Z.divide_abs_r in Hd.
    apply Z.divide_pos_le in Hd; lia.
Qed.

(** X28.  [gcd] returns the greatest common divisor.  For arguments other
    than the most negative [long long], the result is the non-negative
    greatest common divisor of [a] and [b] (so it divides both, and is [|a|]
    when [b] is 0). *)
Theorem gcd_is_greatest_common_divisor a b :
  Int64.min_signed < a <= Int64.max_signed ->
  Int64.min_signed < b <= Int64.max_signed ->
  gcd a b = Z.gcd a b.
Proof.
  unfold Int64.min_signed, Int64.max_signed. intros Ha Hb.
  unfold gcd. rewrite gcd_loop_spec by lia.
  apply wrap_small.
  pose proof (gcd_bound a b (2 ^ 63 - 1) ltac:(lia) ltac:(lia)).
  unfold Int64.in_range, Int64.min_signed, Int64.max_signed. lia.
Qed.

Lemma gcd_is_greatest_common_divisor_witness : gcd (-710) 226 = Z.gcd (-710) 226.
Proof.
  apply (gcd_is_greatest_common_divisor (-710) 226);
    unfold Int64.min_signed, Int64.max_signed; lia.
Defined.

(* ================================================================== *)
(** ** Explicit periodic parts *)

Lemma canonical_of_large v :
  Forall (fun c => 2 <= value c) v -> canonical v = true.
Proof.
  intros H. unfold canonical. apply andb_true_iff. split.
  - destruct H as [|c v Hc Hv]; [reflexivity|]. cbn [no_zero_after_first].
    apply forallb_forall. intros x Hx.
    rewrite Forall_forall in Hv. specialize (Hv x Hx).
    destruct (Z.eqb_spec (value x) 0); [lia|reflexivity].
  - induction H as [|c v Hc Hv IH]; [reflexivity|].
    cbn [no_interior_one]. destruct v as [|c1 [|c2 v']]; try reflexivity.
    rewrite IH, andb_true_r.
    inversion Hv as [|? ? Hc1 _]; subst.
    unfold is_plain_one.
    destruct (Z.eqb_spec (value c1) 1); [lia|reflexivity].
Qed.

Lemma value_ctor_large z m :
  2 <= z <= Int64.max_signed -> 2 <= value (Coefficient_ctor z false m).
Proof.
  unfold Int64.max_signed. intros H. cbn [Coefficient_ctor value].
  rewrite wrap_small; [lia|].
  unfold Int64.in_range, Int64.min_signed, Int64.max_signed. lia.
Qed.

Lemma markers_of_map l :
  map is_periodic_marker (map Coefficient_of l) = repeat false (length l).
Proof. induction l as [|a l IH]; [reflexivity|]. cbn. now rewrite IH. Qed.

(** X29.  [create_periodic] stores plain parts as given.  When every
    coefficient of both parts is at least 2 and the periodic part is not
    empty, nothing is merged or removed: the stored sequence is the
    non-periodic part followed by the periodic part, exactly the first
    coefficient of the periodic part carries the marker, and the fraction is
    periodic and not finite. *)
Theorem create_periodic_stores_plain_parts np p0 ps :
  Forall (fun c => 2 <= c <= Int64.max_signed) (np ++ p0 :: ps) ->
  let cf := create_periodic np (p0 :: ps) in
  get_coefficients cf = np ++ p0 :: ps /\
  map is_periodic_marker (coefficients_ cf) =
    repeat false (length np) ++ true :: repeat false (length ps) /\
  is_periodic cf = true /\ is_finite cf = false.
Proof.
  intros H. cbv zeta.
  set (built := map Coefficient_of np ++
                Coefficient_ctor p0 false true :: map Coefficient_of ps).
  apply Forall_app in H as [Hnp Hp]. inversion Hp as [|? ? Hp0 Hps]; subst.
  assert (Hrange : forall l, Forall (fun c => 2 <= c <= Int64.max_signed) l ->
                             Forall Int64.in_range l).
  { intros l Hl. eapply Forall_impl; [|exact Hl]. cbv beta.
    unfold Int64.in_range, Int64.min_signed, Int64.max_signed. lia. }
  assert (Hlarge : forall l, Forall (fun c => 2 <= c <= Int64.max_signed) l ->
                             Forall (fun c => 2 <= value c) (map Coefficient_of l)).
  { intros l Hl. apply Forall_map. eapply Forall_impl; [|exact Hl].
    cbv beta. intros z Hz. now apply value_ctor_large. }
  assert (Hcan : canonical built = true).
  { apply canonical_of_large. unfold built. apply Forall_app. split; [auto|].
    constructor; [now apply value_ctor_large|auto]. }
  assert (Ec : coefficients_ (create_periodic np (p0 :: ps)) = built).
  { unfold create_periodic, normalize.
    cbn [invalidate_cache update_flags with_coefficients coefficients_].
    now apply normalize_coefficients_canonical. }
  assert (Em : has_marker built = true).
  { unfold has_marker, built. rewrite existsb_app. cbn [existsb Coefficient_ctor
      is_periodic_marker]. rewrite orb_true_l. apply orb_true_r. }
  split; [|split; [|split]].
  - unfold get_coefficients. rewrite Ec. unfold built.
    rewrite map_app. cbn [map].
    rewrite !signed_value_of_map by auto.
    rewrite signed_value_ctor; [reflexivity|].
    unfold Int64.in_range, Int64.min_signed, Int64.max_signed in *. lia.
  - rewrite Ec. unfold built. rewrite map_app. cbn [map].
    now rewrite !markers_of_map.
  - unfold is_periodic, create_periodic, normalize.
    cbn [invalidate_cache update_flags with_coefficients coefficients_
         is_periodic_].
    rewrite normalize_coefficients_canonical by exact Hcan. exact Em.
  - unfold is_finite, create_periodic, normalize.
    cbn [invalidate_cache update_flags with_coefficients coefficients_
         is_finite_].
    rewrite normalize_coefficients_canonical by exact Hcan.
    fold built. unfold has_marker in Em. now rewrite Em.
Qed.

Lemma create_periodic_stores_plain_parts_witness :
  let cf := create_periodic [3] [3; 6] in
  get_coefficients cf = [3; 3; 6] /\
  map is_periodic_marker (coefficients_ cf) = [false; true; false] /\
  is_periodic cf = true /\ is_finite cf = false.
Proof.
  apply (create_periodic_stores_plain_parts [3] 3 [6]).
  unfold Int64.max_signed. repeat constructor; lia.
Defined.

(* ================================================================== *)
(** ** The generators and [max_terms] *)

Lemma sqrt_loop_length count : forall n a0 m d a acc,
  (length acc <= length (sqrt_loop count n a0 m d a acc) <= length acc + count)%nat.
Proof.
  induction count as [|count IH]; intros n a0 m d a acc; [cbn; lia|].
  cbn [sqrt_loop]. cbv zeta.
  set (m' := Int64.wrap (d * a - m)).
  set (d' := Int64.div (Int64.wrap (n - m' * m')) d).
  set (a' := Int64.div (Int64.wrap (a0 + m')) d').
  assert (Hlen : length (acc ++ [a']) = S (length acc)).
  { rewrite length_app. cbn [length]. lia. }
  destruct (a' =? Int64.wrap (2 * a0)); [lia|].
  specialize (IH n a0 m' d' a' (acc ++ [a'])). lia.
Qed.

Lemma create_periodic_size np p :
  (size (create_periodic np p) <= length np + length p)%nat /\
  (np <> [] -> 1 <= size (create_periodic np p))%nat.
Proof.
  unfold size, create_periodic, normalize.
  cbn [invalidate_cache update_flags with_coefficients coefficients_].
  set (built := map Coefficient_of np ++ _).
  pose proof (normalize_coefficients_length built) as [L1 L2].
  assert (Eb : length built = (length np + length p)%nat).
  { unfold built. rewrite length_app, length_map.
    destruct p; cbn [length]; [reflexivity|]. now rewrite length_map. }
  split; [lia|]. intros Hnp.
  destruct np; [congruence|]. cbn [length] in Eb. lia.
Qed.

(** X30.  The generators and [max_terms].  [e_continued_fraction] returns a
    finite fraction of at least one and at most [max(1, max_terms)]
    coefficients.  [sqrt_continued_fraction] throws [invalid_argument] for a
    negative argument and otherwise returns a fraction of at least one and at
    most [max_terms + 1] coefficients, one more than [max_terms]; that bound
    is reached.  [pi_continued_fraction], when its conversions are defined,
    returns a finite fraction of at most [max_terms] coefficients. *)
Theorem generators_respect_max_terms max_terms :
  ((1 <= size (e_continued_fraction max_terms) <= Nat.max 1 max_terms)%nat /\
   is_finite (e_continued_fraction max_terms) = true) /\
  (forall n, n < 0 ->
     sqrt_continued_fraction n max_terms = throw invalid_argument) /\
  (forall n, 0 <= n ->
     exists cf, sqrt_continued_fraction n max_terms = ret cf /\
                (1 <= size cf <= S max_terms)%nat) /\
  (exists n m cf, sqrt_continued_fraction n m = ret cf /\ size cf = S m) /\
  (forall cf, pi_continued_fraction max_terms = Some cf ->
     (size cf <= max_terms)%nat /\ is_finite cf = true).
Proof.
  split; [|split; [|split; [|split]]].
  - pose proof (normalize_coefficients_length
                  (map Coefficient_of (e_coeffs max_terms))) as [L1 L2].
    assert (El : length (map Coefficient_of (e_coeffs max_terms)) =
                 Nat.max 1 max_terms).
    { rewrite length_map. unfold e_coeffs. cbn [length].
      rewrite length_map, length_seq. lia. }
    assert (Es : size (e_continued_fraction max_terms) =
                 length (normalize_coefficients
                           (map Coefficient_of (e_coeffs max_terms))))
      by reflexivity.
    split; [lia|].
    apply (normalize_unmarked_finite
      {| coefficients_ := map Coefficient_of (e_coeffs max_terms);
         is_finite_ := true; is_periodic_ := false;
         cached_value_ := PrimFloat.zero; value_cached_ := false |}
      (count_markers_unmarked _)).
  - intros n Hn. unfold sqrt_continued_fraction.
    destruct (Z.ltb_spec n 0); [reflexivity|lia].
  - intros n Hn. unfold sqrt_continued_fraction.
    destruct (Z.ltb_spec n 0); [lia|]. cbv zeta.
    set (a0 := ll_of_double _).
    destruct (Int64.wrap (a0 * a0) =? n).
    + eexists. split; [reflexivity|]. cbn. lia.
    + eexists. split; [reflexivity|].
      pose proof (sqrt_loop_length max_terms n a0 0 1 a0 [a0]) as Hl.
      pose proof (create_periodic_size [a0]
                    (tl (sqrt_loop max_terms n a0 0 1 a0 [a0]))) as [S1 S2].
      specialize (S2 ltac:(discriminate)).
      destruct (sqrt_loop max_terms n a0 0 1 a0 [a0]) as [|x l];
        cbn [length tl] in *; lia.
  - exists 7, 2%nat. eexists. split; vm_compute; reflexivity.
  - intros cf H. unfold pi_continued_fraction in H.
    apply from_double_shape in H as (H1 & _ & H3 & _). auto.
Qed.
